(** * The dual-layout morph engine of the memory tree

    A shallow embedding of the per-frame morph code of [TreeSystem]
    (src/unnamed/part_000) and [CrystalOrnaments]
    (src/src/components/CrystalOrnaments.tsx), and of the screen-space
    selection effect of [TreeSystem].

    JavaScript numbers are modelled twice, behind one interface [Num]:
    - [R]: exact real arithmetic (rounding is idealised away);
    - [jsnum]: reals extended with [Infinity], [-Infinity] and [NaN],
      with the special-value rules of ECMAScript and exact arithmetic on
      finite values (signed zeros are identified; a finite operation never
      rounds and never overflows, so this model says where [NaN] and the
      infinities that enter a computation go, not which magnitudes
      overflow).
    The engine is written once, over the interface. *)

From Stdlib Require Import Reals Lra Lia ZArith List String Bool.
Import ListNotations.

Open Scope R_scope.

(** ** The numeric interface *)

Class Num (T : Type) : Type := {
  lit : R -> T;                 (* a numeric literal *)
  add : T -> T -> T;
  sub : T -> T -> T;
  mul : T -> T -> T;
  neg : T -> T;
  Math_sqrt : T -> T;
  Math_cos : T -> T;
  Math_sin : T -> T;
  Math_exp : T -> T;
  Math_atan2 : T -> T -> T
}.

Declare Scope num_scope.
Delimit Scope num_scope with num.
Notation "x + y" := (add x y) : num_scope.
Notation "x - y" := (sub x y) : num_scope.
Notation "x * y" := (mul x y) : num_scope.
Notation "- x" := (neg x) : num_scope.

(** ** [Math.atan2] on the reals

    The quadrant rules of ECMAScript's [Math.atan2 (y, x)]; at the origin
    the result is 0. *)

Definition atan2 (y x : R) : R :=
  if Rlt_dec 0 x then atan (y / x)
  else if Rlt_dec x 0 then
         if Rle_dec 0 y then atan (y / x) + PI else atan (y / x) - PI
  else if Rlt_dec 0 y then PI / 2
  else if Rlt_dec y 0 then - (PI / 2)
  else 0.

#[export] Instance Num_R : Num R := {|
  lit := fun r => r;
  add := Rplus;
  sub := Rminus;
  mul := Rmult;
  neg := Ropp;
  Math_sqrt := sqrt;
  Math_cos := cos;
  Math_sin := sin;
  Math_exp := exp;
  Math_atan2 := atan2
|}.

(** ** JavaScript numbers with their special values *)

Inductive jsnum : Type :=
| Fin (r : R)
| PInf
| NInf
| NaN.

Definition js_of_sign (r : R) : jsnum :=
  if Rlt_dec 0 r then PInf else if Rlt_dec r 0 then NInf else NaN.

Definition js_neg (a : jsnum) : jsnum :=
  match a with
  | Fin r => Fin (- r)
  | PInf => NInf
  | NInf => PInf
  | NaN => NaN
  end.

Definition js_add (a b : jsnum) : jsnum :=
  match a, b with
  | NaN, _ | _, NaN => NaN
  | Fin x, Fin y => Fin (x + y)
  | PInf, NInf | NInf, PInf => NaN
  | PInf, _ | _, PInf => PInf
  | NInf, _ | _, NInf => NInf
  end.

Definition js_sub (a b : jsnum) : jsnum := js_add a (js_neg b).

Definition js_mul (a b : jsnum) : jsnum :=
  match a, b with
  | NaN, _ | _, NaN => NaN
  | Fin x, Fin y => Fin (x * y)
  | Fin x, PInf | PInf, Fin x => js_of_sign x
  | Fin x, NInf | NInf, Fin x => js_of_sign (- x)
  | PInf, PInf | NInf, NInf => PInf
  | PInf, NInf | NInf, PInf => NInf
  end.

Definition js_sqrt (a : jsnum) : jsnum :=
  match a with
  | Fin x => if Rlt_dec x 0 then NaN else Fin (sqrt x)
  | PInf => PInf
  | NInf | NaN => NaN
  end.

Definition js_cos (a : jsnum) : jsnum :=
  match a with Fin x => Fin (cos x) | _ => NaN end.

Definition js_sin (a : jsnum) : jsnum :=
  match a with Fin x => Fin (sin x) | _ => NaN end.

Definition js_exp (a : jsnum) : jsnum :=
  match a with
  | Fin x => Fin (exp x)
  | PInf => PInf
  | NInf => Fin 0
  | NaN => NaN
  end.

Definition js_atan2 (a b : jsnum) : jsnum :=
  match a, b with
  | NaN, _ | _, NaN => NaN
  | Fin y, Fin x => Fin (atan2 y x)
  | Fin y, PInf => Fin 0
  | Fin y, NInf => if Rlt_dec y 0 then Fin (- PI) else Fin PI
  | PInf, Fin _ => Fin (PI / 2)
  | NInf, Fin _ => Fin (- (PI / 2))
  | PInf, PInf => Fin (PI / 4)
  | PInf, NInf => Fin (3 * PI / 4)
  | NInf, PInf => Fin (- (PI / 4))
  | NInf, NInf => Fin (- (3 * PI / 4))
  end.

#[export] Instance Num_js : Num jsnum := {|
  lit := Fin;
  add := js_add;
  sub := js_sub;
  mul := js_mul;
  neg := js_neg;
  Math_sqrt := js_sqrt;
  Math_cos := js_cos;
  Math_sin := js_sin;
  Math_exp := js_exp;
  Math_atan2 := js_atan2
|}.

Definition is_finite (a : jsnum) : bool :=
  match a with Fin _ => true | _ => false end.

(** ** Points *)

Record vec3 (T : Type) : Type := V3 { vx : T; vy : T; vz : T }.
Arguments V3 {T} _ _ _.
Arguments vx {T} _.
Arguments vy {T} _.
Arguments vz {T} _.

(** The tree-side target of an ornament is stored in cylindrical form
    ([treeCyl: { h, r, angle }]). *)
Record cyl (T : Type) : Type := Cyl { cyl_h : T; cyl_r : T; cyl_angle : T }.
Arguments Cyl {T} _ _ _.
Arguments cyl_h {T} _.
Arguments cyl_r {T} _.
Arguments cyl_angle {T} _.

(** ** The morph engine, over any [Num] *)

Section Engine.
Context {T : Type} `{Num T}.
Local Open Scope num_scope.

(** [THREE.MathUtils.lerp (x, y, t)] is [(1 - t) * x + t * y]. *)
Definition lerp (x y t : T) : T := (lit 1 - t) * x + t * y.

(** [THREE.MathUtils.damp (x, y, lambda, dt)] is
    [lerp (x, y, 1 - Math.exp (- lambda * dt))]. *)
Definition damp (x y lambda dt : T) : T :=
  lerp x y (lit 1 - Math_exp (- lambda * dt)).

(** [const ease = p * p * (3 - 2 * p)], in both components. *)
Definition ease (p : T) : T := p * p * (lit 3 - lit 2 * p).

(** Per-population constants of the blend loops. *)
Definition foliageVortex : T := lit 15.0.
Definition foliageCoRotation : T := lit 0.5.
Definition lightsVortex : T := lit 12.0.
Definition lightsCoRotation : T := lit 0.3.
Definition ornamentsVortex : T := lit 12.0.
Definition ornamentsCoRotation : T := lit 0.15.
Definition photosVortex : T := lit 10.0.
Definition photosCoRotation : T := lit 0.2.

(** The body shared by the foliage, lights and photo loops of
    [TreeSystem]'s [useFrame]; the loops differ in the two constants. *)
Definition polarBlend (vortexStrength coRotation : T)
           (c t : vec3 T) (ease treeRotation : T) : vec3 T :=
  let cx := vx c in let cy := vy c in let cz := vz c in
  let tx := vx t in let ty := vy t in let tz := vz t in
  let y := lerp cy ty ease in
  let tr := Math_sqrt (tx * tx + tz * tz) in
  let tAngle := Math_atan2 tz tx in
  let cr := Math_sqrt (cx * cx + cz * cz) in
  let r := lerp cr tr ease in
  let vortexTwist := (lit 1 - ease) * vortexStrength in
  let currentAngle := tAngle + vortexTwist + treeRotation in
  let formedX := r * Math_cos currentAngle in
  let formedZ := r * Math_sin currentAngle in
  let cAngle := Math_atan2 cz cx in
  let cRotatedX := cr * Math_cos (cAngle + treeRotation * coRotation) in
  let cRotatedZ := cr * Math_sin (cAngle + treeRotation * coRotation) in
  V3 (lerp cRotatedX formedX ease) y (lerp cRotatedZ formedZ ease).

Definition foliageBlend := polarBlend foliageVortex foliageCoRotation.
Definition lightsBlend := polarBlend lightsVortex lightsCoRotation.
Definition photosBlend := polarBlend photosVortex photosCoRotation.

(** The ornament loop of [CrystalOrnaments]' [useFrame]: the same blend,
    the tree side read from [treeCyl]. *)
Definition ornamentsBlend (chaosPos : vec3 T) (treeCyl : cyl T)
           (ease treeRotation : T) : vec3 T :=
  let cx := vx chaosPos in
  let cy := vy chaosPos in
  let cz := vz chaosPos in
  let cr := Math_sqrt (cx * cx + cz * cz) in
  let cAngle := Math_atan2 cz cx in
  let h := cyl_h treeCyl in
  let r := cyl_r treeCyl in
  let angle := cyl_angle treeCyl in
  let y := lerp cy h ease in
  let currentR := lerp cr r ease in
  let vortexTwist := (lit 1 - ease) * ornamentsVortex in
  let currentAngle := angle + vortexTwist + treeRotation in
  let cRotatedX := cr * Math_cos (cAngle + treeRotation * ornamentsCoRotation) in
  let cRotatedZ := cr * Math_sin (cAngle + treeRotation * ornamentsCoRotation) in
  let tX := currentR * Math_cos currentAngle in
  let tZ := currentR * Math_sin currentAngle in
  V3 (lerp cRotatedX tX ease) y (lerp cRotatedZ tZ ease).

(** The clock part of [useFrame]:
    [progress.current = damp (progress.current, targetProgress, 2.5, delta)]. *)
Definition advance (targetProgress delta progress : T) : T :=
  damp progress targetProgress (lit 2.5) delta.

Fixpoint ticks (n : nat) (targetProgress delta progress : T) : T :=
  match n with
  | O => progress
  | S k => ticks k targetProgress delta (advance targetProgress delta progress)
  end.

(** Cylindrical reading of a point, as in step 1 of the blend. *)
Definition radius (p : vec3 T) : T := Math_sqrt (vx p * vx p + vz p * vz p).
Definition azimuth (p : vec3 T) : T := Math_atan2 (vz p) (vx p).
Definition ofCyl (r theta y : T) : vec3 T :=
  V3 (r * Math_cos theta) y (r * Math_sin theta).
End Engine.

(** Reading a point of finite reals as a point of JavaScript numbers. *)
Definition vec3_map {A B : Type} (f : A -> B) (p : vec3 A) : vec3 B :=
  V3 (f (vx p)) (f (vy p)) (f (vz p)).

Definition vec3_finite (p : vec3 jsnum) : bool :=
  is_finite (vx p) && is_finite (vy p) && is_finite (vz p).

(** ** Screen-space selection ([TreeSystem], the effect on [clickTrigger]) *)

(** The application mode: [state === 'CHAOS'] or [state === 'FORMED']. *)
Inductive AppState : Type := CHAOS | FORMED.

(** [pointer]: screen-fraction coordinates, or [null]. *)
Record PointerCoords : Type := Pointer { pointer_x : R; pointer_y : R }.

(** What the effect reads of a photo object: [obj.data.image] and the world
    position of [obj.ref.current], [None] while the ref is [null]. *)
Record PhotoPanel : Type := Panel {
  panel_image : string;
  panel_ref : option (vec3 R)
}.

(** The selection: [selectedPhotoUrl] and [photoOpenTimeRef.current]
    (milliseconds, as read from [Date.now ()]). *)
Record Selection : Type := Sel {
  selectedPhotoUrl : option string;
  photoOpenTimeRef : Z
}.

Definition Rltb (x y : R) : bool := if Rlt_dec x y then true else false.

(** [Math.hypot (a, b)]. *)
Definition Math_hypot (a b : R) : R := sqrt (a * a + b * b).

(** Truthiness of a [string | null]: neither [null] nor the empty string. *)
Definition truthy (s : option string) : bool :=
  match s with
  | Some u => negb (String.eqb u EmptyString)
  | None => false
  end.

(** [a === b] on [string | null]. *)
Definition strict_eq (a b : option string) : bool :=
  match a, b with
  | Some u, Some v => String.eqb u v
  | None, None => true
  | _, _ => false
  end.

Definition SELECTION_THRESHOLD : R := 0.05.
Definition LOCK_MS : Z := 3000.

Section Selection.
(** [worldPos.clone ().project (camera)]: the camera's projection to
    normalized device coordinates, left abstract. *)
Variable project : vec3 R -> vec3 R.

Definition ndcX (pointer : PointerCoords) : R := pointer_x pointer * 2 - 1.
Definition ndcY (pointer : PointerCoords) : R := - (pointer_y pointer * 2) + 1.

(** The distance the loop computes for a panel, when it computes one:
    the panel is mounted and its projected depth is below 1. *)
Definition screenDistance (pointer : PointerCoords) (obj : PhotoPanel)
  : option R :=
  match panel_ref obj with
  | None => None
  | Some worldPos =>
      let screenPos := project worldPos in
      if Rltb (vz screenPos) 1
      then Some (Math_hypot (vx screenPos - ndcX pointer)
                            (vy screenPos - ndcY pointer))
      else None
  end.

(** [dist < minDistance], where [minDistance] starts at [Infinity]
    ([None]). *)
Definition below (dist : R) (minDistance : option R) : bool :=
  match minDistance with
  | None => true
  | Some m => Rltb dist m
  end.

(** One pass of the [forEach] body over the pair
    [(closestPhotoId, minDistance)]. *)
Definition scanPanel (pointer : PointerCoords)
           (acc : option string * option R) (obj : PhotoPanel)
  : option string * option R :=
  match screenDistance pointer obj with
  | None => acc
  | Some dist =>
      if Rltb dist SELECTION_THRESHOLD && below dist (snd acc)
      then (Some (panel_image obj), Some dist)
      else acc
  end.

Definition closestPhoto (pointer : PointerCoords)
           (photoObjects : list PhotoPanel) : option string :=
  fst (fold_left (scanPanel pointer) photoObjects (None, None)).

(** The effect body, run once per change of [clickTrigger].  [now] is the
    value of [Date.now ()] during the run. *)
Definition onClickTrigger (state : AppState) (pointer : option PointerCoords)
           (now : Z) (photoObjects : list PhotoPanel) (s : Selection)
  : Selection :=
  match state, pointer with
  | CHAOS, Some pointer =>
      if truthy (selectedPhotoUrl s)
         && (now - photoOpenTimeRef s <? LOCK_MS)%Z
      then s
      else
        let closestPhotoId := closestPhoto pointer photoObjects in
        if truthy closestPhotoId then
          if strict_eq (selectedPhotoUrl s) closestPhotoId then
            if (LOCK_MS <? now - photoOpenTimeRef s)%Z
            then Sel None (photoOpenTimeRef s)
            else s
          else Sel closestPhotoId now
        else if truthy (selectedPhotoUrl s) then
          if (LOCK_MS <? now - photoOpenTimeRef s)%Z
          then Sel None (photoOpenTimeRef s)
          else s
        else s
  | _, _ => s
  end.

(** Loop invariant of the scan: what the pair
    [(closestPhotoId, minDistance)] says about the panels seen so far. *)
Definition scanned (pointer : PointerCoords) (seen : list PhotoPanel)
           (acc : option string * option R) : Prop :=
  match acc with
  | (None, None) =>
      forall obj d, In obj seen -> screenDistance pointer obj = Some d ->
                    SELECTION_THRESHOLD <= d
  | (Some id, Some m) =>
      m < SELECTION_THRESHOLD
      /\ (exists obj, In obj seen /\ panel_image obj = id
                      /\ screenDistance pointer obj = Some m)
      /\ (forall obj d, In obj seen -> screenDistance pointer obj = Some d ->
                        m <= d)
  | _ => False
  end.
End Selection.

(** The photo URLs of this program are ["/photos/" ++ fileName]: never the
    empty string. *)
Definition nonempty_images (photoObjects : list PhotoPanel) : Prop :=
  Forall (fun obj => panel_image obj <> EmptyString) photoObjects.

(** ** Layouts: generation ([useMemo]) and the per-tick update ([useFrame])

    Numbers are exact reals here.  The typed arrays of [TreeSystem] live in
    a store indexed by the array's identity, so that a write through an
    alias ([positions] is the [foliageData.current] array handed to the
    geometry) is a write to that array and to no other. *)

(** [for (let i = 0; i < n; i++) body (i)]. *)
Definition for_loop {S : Type} (n : nat) (body : nat -> S -> S) (s : S) : S :=
  fold_left (fun acc i => body i acc) (seq 0 n) s.

(** The [Float32Array]s allocated by [TreeSystem]'s [useMemo]. *)
Inductive buffer : Type :=
| foliage_current
| foliage_chaos
| foliage_tree
| foliage_sizes
| lights_chaos
| lights_tree.

Definition buffer_eqb (a b : buffer) : bool :=
  match a, b with
  | foliage_current, foliage_current
  | foliage_chaos, foliage_chaos
  | foliage_tree, foliage_tree
  | foliage_sizes, foliage_sizes
  | lights_chaos, lights_chaos
  | lights_tree, lights_tree => true
  | _, _ => false
  end.

Definition heap : Type := buffer -> list R.

(** [new Float32Array (n)]: [n] zeros. *)
Definition Float32Array_new (n : nat) : list R := repeat 0 n.

(** [a[i] = v] on a typed array; out of range nothing is written. *)
Fixpoint array_set (a : list R) (i : nat) (v : R) : list R :=
  match a, i with
  | [], _ => []
  | _ :: rest, O => v :: rest
  | x :: rest, S j => x :: array_set rest j v
  end.

(** [a[i]]; every loop below reads in range. *)
Definition array_get (a : list R) (i : nat) : R := nth i a 0.

Definition heap_set (h : heap) (b : buffer) (i : nat) (v : R) : heap :=
  fun b' => if buffer_eqb b b' then array_set (h b') i v else h b'.

Definition heap_get (h : heap) (b : buffer) (i : nat) : R :=
  array_get (h b) i.

Definition heap_point (h : heap) (b : buffer) (i3 : nat) : vec3 R :=
  V3 (heap_get h b i3) (heap_get h b (i3 + 1)) (heap_get h b (i3 + 2)).

(** What the photo loop keeps of a [ParticleData] (the display fields
    [id], [type], [year], [month] and [color] are left out). *)
Record ParticleData : Type := Particle {
  image : string;
  chaosPos : vec3 R;
  treePos : vec3 R;
  chaosRot : vec3 R;
  treeRot : vec3 R;
  scale : R
}.

(** An element of [ornaments] in [CrystalOrnaments] (shape and colour are
    left out). *)
Record Ornament : Type := MkOrnament {
  o_id : nat;
  o_chaosPos : vec3 R;
  o_treeCyl : cyl R;
  o_scale : R;
  o_rotationOffset : R
}.

Definition particleCount : nat := 4500.
Definition lightCount : nat := 300.
Definition ornamentCount : nat := 40.

Definition photoFiles : list string :=
  [ "2024_06_1.jpg"; "2024_07_1.jpg"; "2024_07_2.jpg";
    "2024_09_1.jpg"; "2024_09_2.jpg"; "2024_09_3.jpg";
    "2024_09_4.jpg"; "2024_09_5.jpg"; "2024_09_6.jpg";
    "2024_10_1.jpg"; "2024_11_1.jpg"; "2024_12_1.jpg";
    "2024_12_2.jpg"; "2024_12_3.jpg"; "2025_01_1.jpg";
    "2025_01_2.jpg"; "2025_01_3.jpg"; "2025_01_4.jpg";
    "2025_01_5.jpg"; "2025_01_6.jpg"; "2025_01_7.jpg";
    "2025_02_1.jpg"; "2025_05_1.jpg"; "2025_06_1.jpg";
    "2025_06_2.jpg"; "2025_06_3.jpg"; "2025_09_1.jpg";
    "2025_10_1.jpg"; "2025_10_2.jpg"; "2025_11_1.jpg";
    "2025_11_2.jpg" ]%string.

(** [photoFiles.sort ()]: the default order on strings. *)
Fixpoint insert_sorted (s : string) (l : list string) : list string :=
  match l with
  | [] => [s]
  | x :: rest => if String.leb s x then s :: l else x :: insert_sorted s rest
  end.

Definition sort_strings (l : list string) : list string :=
  fold_right insert_sorted [] l.

Section Generation.
(** [rnd k]: the result of the [k]-th call of [Math.random ()] made by the
    body of the [useMemo]; [sphere] and [lSphere]: the contents of the
    arrays returned by the two calls of [random.inSphere]. *)
Variable rnd : nat -> R.
Variable sphere lSphere : nat -> R.

Definition allocate : heap :=
  fun b =>
    match b with
    | foliage_current | foliage_chaos | foliage_tree =>
        Float32Array_new (particleCount * 3)
    | foliage_sizes => Float32Array_new particleCount
    | lights_chaos | lights_tree => Float32Array_new (lightCount * 3)
    end.

Definition generateFoliage (h : heap) : heap :=
  let h1 :=
    for_loop (particleCount * 3)
             (fun i h => heap_set h foliage_chaos i (sphere i)) h in
  for_loop particleCount
           (fun i h =>
              let i3 := (i * 3)%nat in
              let hgt := rnd (3 * i) * 14 in
              let coneRadius := (14 - hgt) * 0.45 in
              let angle := hgt * 3.0 + rnd (3 * i + 1) * PI * 2 in
              let h := heap_set h foliage_tree i3 (cos angle * coneRadius) in
              let h := heap_set h foliage_tree (i3 + 1) (hgt - 6) in
              let h := heap_set h foliage_tree (i3 + 2) (sin angle * coneRadius) in
              heap_set h foliage_sizes i (rnd (3 * i + 2) * 1.5 + 0.5))
           h1.

Definition generateLights (h : heap) : heap :=
  let h1 :=
    for_loop (lightCount * 3)
             (fun i h => heap_set h lights_chaos i (lSphere i)) h in
  for_loop lightCount
           (fun i h =>
              let i3 := (i * 3)%nat in
              let t := INR i / INR lightCount in
              let hgt := t * 13 in
              let coneRadius := (14 - hgt) * 0.48 in
              let angle := t * PI * 25 in
              let h := heap_set h lights_tree i3 (cos angle * coneRadius) in
              let h := heap_set h lights_tree (i3 + 1) (hgt - 6) in
              heap_set h lights_tree (i3 + 2) (sin angle * coneRadius))
           h1.

(** The foliage loop draws three random numbers per particle; the photo
    loop, which runs after it, five per photo. *)
Definition photoDraw (i k : nat) : R := rnd (3 * particleCount + 5 * i + k).

Definition generatePhoto (photoCount i : nat) (fileName : string)
  : ParticleData :=
  let t := INR i / INR (photoCount - 1) in
  let h := t * 14 - 7 in
  let radius := (7 - (h + 7)) * 0.4 + 1.5 in
  let angle := t * PI * 10 in
  let treeX := cos angle * radius in
  let treeY := h in
  let treeZ := sin angle * radius in
  let phi := acos (1 - 2 * (INR i + 0.5) / INR photoCount) in
  let theta := PI * (1 + sqrt 5) * (INR i + 0.5) in
  let r := 12 + photoDraw i 0 * 4 in
  let chaosX := r * sin phi * cos theta in
  let chaosY := r * sin phi * sin theta * 0.6 in
  let chaosZ := r * cos phi in
  Particle (String.append "/photos/" fileName)
           (V3 chaosX chaosY chaosZ)
           (V3 treeX treeY treeZ)
           (V3 ((photoDraw i 1 - 0.5) * 0.2)
               (0 + (photoDraw i 2 - 0.5) * 0.2)
               ((photoDraw i 3 - 0.5) * 0.1))
           (V3 0 (- angle + PI / 2) 0)
           (0.9 + photoDraw i 4 * 0.3).

Definition generatePhotos : list ParticleData :=
  let files := sort_strings photoFiles in
  let photoCount := List.length files in
  for_loop photoCount
           (fun i photos =>
              photos ++ [generatePhoto photoCount i (nth i files EmptyString)])
           [].
End Generation.

Section OrnamentGeneration.
(** [rnd k]: the [k]-th call of [Math.random ()] in [CrystalOrnaments]'
    [useMemo]; each ornament draws five (radius, shape, colour, scale,
    rotation offset). *)
Variable rnd : nat -> R.

Definition generateOrnament (count i : nat) : Ornament :=
  let t := INR i / INR count in
  let h := t * 11 - 5.5 in
  let r := (6 - (h + 5.5)) * 0.5 + 0.5 in
  let angle := t * PI * 13 in
  let phi := acos (1 - 2 * (INR i + 0.5) / INR count) in
  let theta := PI * (1 + sqrt 5) * (INR i + 0.5) in
  let radius := 12 + rnd (5 * i) * 8 in
  MkOrnament i
             (V3 (radius * sin phi * cos theta)
                 (radius * sin phi * sin theta * 0.7)
                 (radius * cos phi))
             (Cyl h r angle)
             (rnd (5 * i + 3) * 0.18 + 0.12)
             (rnd (5 * i + 4) * PI * 2).

Definition generateOrnaments : list Ornament :=
  for_loop ornamentCount
           (fun i items => items ++ [generateOrnament ornamentCount i]) [].
End OrnamentGeneration.

(** *** The tick of [TreeSystem] *)

(** A photo object: its layout data and, once mounted, the position and
    rotation of [obj.ref.current]. *)
Record PhotoObject : Type := PhotoObj {
  po_data : ParticleData;
  po_ref : option (vec3 R * vec3 R)
}.

Record TreeScene : Type := Scene {
  ts_heap : heap;
  ts_lights : list (vec3 R * R);   (* instance position and uniform scale *)
  ts_photos : list PhotoObject;
  ts_progress : R;
  ts_treeRotation : R;
  ts_pan : R * R
}.

(** What a tick reads from the context and the renderer. *)
Record FrameInput : Type := Frame {
  f_state : AppState;
  f_rotationSpeed : R;
  f_rotationBoost : R;
  f_panOffset : R * R;
  f_delta : R;
  f_time : R;
  f_points : bool;   (* [pointsRef.current] is set *)
  f_lightsRef : bool (* [lightsRef.current] is set *)
}.

(** [setMatrixAt (i, m)] on the instance list. *)
Fixpoint instance_set {A : Type} (l : list A) (i : nat) (v : A) : list A :=
  match l, i with
  | [], _ => []
  | _ :: rest, O => v :: rest
  | x :: rest, S j => x :: instance_set rest j v
  end.

(** The foliage loop: [len = positions.length / 3], and [i < len] holds for
    the indices below the ceiling of that quotient; each pass reads the
    chaos and tree arrays and writes three cells of [positions]. *)
Definition foliageLoop (positions : buffer) (easeV treeRotation : R)
           (h : heap) : heap :=
  let len := ((List.length (h positions) + 2) / 3)%nat in
  for_loop len
           (fun i h =>
              let i3 := (i * 3)%nat in
              let p := foliageBlend (heap_point h foliage_chaos i3)
                                    (heap_point h foliage_tree i3)
                                    easeV treeRotation in
              let h := heap_set h positions i3 (vx p) in
              let h := heap_set h positions (i3 + 1) (vy p) in
              heap_set h positions (i3 + 2) (vz p))
           h.

Definition lightsLoop (easeV treeRotation time : R) (h : heap)
           (instances : list (vec3 R * R)) : list (vec3 R * R) :=
  for_loop lightCount
           (fun i instances =>
              let i3 := (i * 3)%nat in
              let p := lightsBlend (heap_point h lights_chaos i3)
                                   (heap_point h lights_tree i3)
                                   easeV treeRotation in
              let blink := 0.8 + sin (time * 3 + INR i * 0.5) * 0.2 in
              instance_set instances i (p, blink))
           instances.

Definition photoUpdate (easeV treeRotation : R) (obj : PhotoObject)
  : PhotoObject :=
  match po_ref obj with
  | None => obj
  | Some _ =>
      let d := po_data obj in
      let tAngle := atan2 (vz (treePos d)) (vx (treePos d)) in
      let vortexTwist := (1 - easeV) * 10.0 in
      let currentAngle := tAngle + vortexTwist + treeRotation in
      let lookAtAngle := - currentAngle + PI / 2 in
      PhotoObj d
               (Some (photosBlend (chaosPos d) (treePos d) easeV treeRotation,
                      V3 (lerp (vx (chaosRot d)) (vx (treeRot d)) easeV)
                         (lerp (vy (chaosRot d)) lookAtAngle easeV)
                         (lerp (vz (chaosRot d)) (vz (treeRot d)) easeV)))
  end.

Definition useFrame (f : FrameInput) (s : TreeScene) : TreeScene :=
  let targetProgress := match f_state f with FORMED => 1 | CHAOS => 0 end in
  let progress := damp (ts_progress s) targetProgress 2.5 (f_delta f) in
  let easeV := progress * progress * (3 - 2 * progress) in
  let currentRotationSpeed :=
    match f_state f with
    | FORMED => f_rotationSpeed f + f_rotationBoost f
    | CHAOS => 0.08
    end in
  let treeRotation := ts_treeRotation s + currentRotationSpeed * f_delta f in
  let pan := (damp (fst (ts_pan s)) (fst (f_panOffset f)) 8 (f_delta f),
              damp (snd (ts_pan s)) (snd (f_panOffset f)) 8 (f_delta f)) in
  let h := if f_points f
           then foliageLoop foliage_current easeV treeRotation (ts_heap s)
           else ts_heap s in
  let lights := if f_lightsRef f
                then lightsLoop easeV treeRotation (f_time f) h (ts_lights s)
                else ts_lights s in
  Scene h lights (map (photoUpdate easeV treeRotation) (ts_photos s))
        progress treeRotation pan.

Definition runFrames (fs : list FrameInput) (s : TreeScene) : TreeScene :=
  fold_left (fun acc f => useFrame f acc) fs s.

(** The scene after generation, before the first tick; [mounted i] tells
    whether the [i]-th photo group is mounted. *)
Definition initialScene (rnd sphere lSphere : nat -> R) (mounted : nat -> bool)
  : TreeScene :=
  let photos := generatePhotos rnd in
  Scene (generateLights lSphere (generateFoliage rnd sphere allocate))
        (repeat (V3 0 0 0, 1) lightCount)
        (map (fun '(i, p) =>
                PhotoObj p (if mounted i
                            then Some (V3 0 0 0, V3 0 0 0) else None))
             (combine (seq 0 (List.length photos)) photos))
        0 0 (0, 0).

(** *** The tick of [CrystalOrnaments] *)

(** A child of the ornaments' group: an ornament mesh or the star, with
    its position. *)
Record Child : Type := MkChild { c_star : bool; c_position : vec3 R }.

Record OrnamentScene : Type := OScene {
  os_ornaments : list Ornament;
  os_children : list Child;
  os_progress : R;
  os_treeRotation : R
}.

Definition ornamentChild (ornaments : list Ornament) (easeV treeRotation : R)
           (i : nat) (child : Child) : Child :=
  if c_star child
  then MkChild true (V3 0 (lerp 12 7.5 easeV) 0)
  else match nth_error ornaments i with
       | None => child
       | Some data =>
           MkChild false (ornamentsBlend (o_chaosPos data) (o_treeCyl data)
                                         easeV treeRotation)
       end.

Definition ornamentsFrame (state : AppState) (rotationSpeed delta : R)
           (s : OrnamentScene) : OrnamentScene :=
  let targetProgress := match state with FORMED => 1 | CHAOS => 0 end in
  let progress := damp (os_progress s) targetProgress 2.5 delta in
  let p := progress in
  let easeV := p * p * (3 - 2 * p) in
  let spinFactor := match state with FORMED => rotationSpeed | CHAOS => 0.06 end in
  let treeRotation := os_treeRotation s + spinFactor * delta in
  OScene (os_ornaments s)
         (map (fun '(i, child) =>
                 ornamentChild (os_ornaments s) easeV treeRotation i child)
              (combine (seq 0 (List.length (os_children s))) (os_children s)))
         progress treeRotation.

Definition runOrnamentFrames (fs : list (AppState * R * R)) (s : OrnamentScene)
  : OrnamentScene :=
  fold_left (fun acc '(state, rotationSpeed, delta) =>
               ornamentsFrame state rotationSpeed delta acc) fs s.

Definition initialOrnaments (rnd : nat -> R) : OrnamentScene :=
  OScene (generateOrnaments rnd)
         (repeat (MkChild false (V3 0 0 0)) ornamentCount
          ++ [MkChild true (V3 0 7.5 0)])
         0 0.

(** The chaos and tree layouts of each population, as sequences of
    points. *)
Fixpoint points_of (a : list R) : list (vec3 R) :=
  match a with
  | x :: y :: z :: rest => V3 x y z :: points_of rest
  | _ => []
  end.

(** ** The texture cache ([loadTextureWithCache])

    The two module-level maps, the promises the function hands out and the
    calls of [loader.load] it issues.  Textures and promises are named by
    numbers; the settings written on a loaded texture are left out.  The
    loader calls back later, never from inside [loader.load]: a request and
    the callbacks of its load are separate events. *)

Definition smap (A : Type) : Type := string -> option A.

Definition smap_set {A : Type} (m : smap A) (k : string) (v : A) : smap A :=
  fun k' => if String.eqb k k' then Some v else m k'.

Definition smap_delete {A : Type} (m : smap A) (k : string) : smap A :=
  fun k' => if String.eqb k k' then None else m k'.

Inductive PromiseState : Type :=
| Pending
| Fulfilled (tex : nat)
| Rejected.

Record TextureStore : Type := TStore {
  textureCache : smap nat;              (* url -> texture *)
  loadingPromises : smap nat;           (* url -> promise *)
  promiseState : nat -> PromiseState;
  nextPromise : nat;                    (* promises created so far *)
  issued : list string                  (* urls passed to [loader.load], latest first *)
}.

Definition emptyStore : TextureStore :=
  TStore (fun _ => None) (fun _ => None) (fun _ => Pending) 0 [].

(** What a call returns: [Promise.resolve (tex)] or a promise of the
    store. *)
Inductive LoadResult : Type :=
| Immediate (tex : nat)
| Shared (promise : nat).

Definition loadTextureWithCache (url : string) (s : TextureStore)
  : LoadResult * TextureStore :=
  match textureCache s url with
  | Some tex => (Immediate tex, s)
  | None =>
      match loadingPromises s url with
      | Some p => (Shared p, s)
      | None =>
          let p := nextPromise s in
          (Shared p,
           TStore (textureCache s)
                  (smap_set (loadingPromises s) url p)
                  (promiseState s)
                  (S p)
                  (url :: issued s))
      end
  end.

(** [resolve]/[reject] settle a pending promise and do nothing to a settled
    one. *)
Definition settle (st : nat -> PromiseState) (p : nat) (v : PromiseState)
  : nat -> PromiseState :=
  fun q => if Nat.eqb p q
           then match st q with Pending => v | settled => settled end
           else st q.

(** The success callback handed to [loader.load] for [url], whose promise
    is [p]. *)
Definition onTextureLoaded (url : string) (p tex : nat) (s : TextureStore)
  : TextureStore :=
  TStore (smap_set (textureCache s) url tex)
         (smap_delete (loadingPromises s) url)
         (settle (promiseState s) p (Fulfilled tex))
         (nextPromise s)
         (issued s).

(** The failure callback: [reject]. *)
Definition onTextureFailed (p : nat) (s : TextureStore) : TextureStore :=
  TStore (textureCache s) (loadingPromises s)
         (settle (promiseState s) p Rejected)
         (nextPromise s) (issued s).

Inductive CacheEvent : Type :=
| Request (url : string)
| LoadedEv (url : string) (p tex : nat)
| FailedEv (p : nat).

Definition cacheStep (s : TextureStore) (e : CacheEvent) : TextureStore :=
  match e with
  | Request url => snd (loadTextureWithCache url s)
  | LoadedEv url p tex => onTextureLoaded url p tex s
  | FailedEv p => onTextureFailed p s
  end.

Definition cacheRun (es : list CacheEvent) (s : TextureStore) : TextureStore :=
  fold_left cacheStep es s.

(** ** A photo's loading ([PolaroidPhoto], the loading effect)

    [loadStatus], the texture, which promise callbacks are registered, and
    the urls the photo has asked for (latest first). *)

Inductive LoadStatus : Type :=
| st_pending
| st_loading
| st_loaded
| st_error.

Inductive Waiting : Type :=
| NoCallback
| OnPrimary
| OnFallback.

Record PhotoLoad : Type := PLoad {
  loadStatus : LoadStatus;
  texture : option nat;
  waiting : Waiting;
  asked : list string
}.

Definition initialPhotoLoad : PhotoLoad := PLoad st_pending None NoCallback [].

Inductive PhotoEvent : Type :=
| EffectRun (shouldLoad : bool)
| Resolves (tex : nat)   (* the promise being waited on is fulfilled *)
| Rejects.               (* the promise being waited on is rejected *)

Section PhotoLoading.
(** The photo's own url and its fallback url
    ([`https://picsum.photos/seed/${parseInt (seed) + 100}/400/500`]). *)
Variable url fallbackUrl : string.

Definition photoLoadStep (s : PhotoLoad) (e : PhotoEvent) : PhotoLoad :=
  match e with
  | EffectRun shouldLoad =>
      match shouldLoad, loadStatus s with
      | true, st_pending =>
          PLoad st_loading (texture s) OnPrimary (url :: asked s)
      | _, _ => s
      end
  | Resolves tex =>
      match waiting s with
      | NoCallback => s
      | OnPrimary | OnFallback => PLoad st_loaded (Some tex) NoCallback (asked s)
      end
  | Rejects =>
      match waiting s with
      | NoCallback => s
      | OnPrimary =>
          PLoad (loadStatus s) (texture s) OnFallback (fallbackUrl :: asked s)
      | OnFallback => PLoad st_error (texture s) NoCallback (asked s)
      end
  end.

Definition photoLoadRun (es : list PhotoEvent) (s : PhotoLoad) : PhotoLoad :=
  fold_left photoLoadStep es s.
End PhotoLoading.

(** ** The hover animation ([PolaroidPhoto]'s [useFrame]) *)

Definition hoverTarget (isSelected : bool) : R :=
  if isSelected then 1.15 else 1.

Definition hoverStep (isSelected : bool) (delta hoverScale : R) : R :=
  lerp hoverScale (hoverTarget isSelected) (delta * 8).

(** [groupRef.current.scale.setScalar (scale * 1.2 * hoverScale.current)]. *)
Definition groupScale (scale hoverScale : R) : R := scale * 1.2 * hoverScale.

(** ** Progressive loading ([TreeSystem], the effect on [loadedCount]) *)

(** [setLoadedCount (prev => Math.min (prev + 2, photoObjects.length))],
    scheduled unless [loadedCount >= photoObjects.length]. *)
Definition loadNext (photoCount prev : nat) : nat := Nat.min (prev + 2) photoCount.

Definition loadedCountStep (photoCount loadedCount : nat) : nat :=
  if (photoCount <=? loadedCount)%nat then loadedCount
  else loadNext photoCount loadedCount.

(** [shouldLoad = {index < loadedCount}]. *)
Definition shouldLoad (index loadedCount : nat) : bool :=
  (index <? loadedCount)%nat.

(** ** The trunk ([TreeSystem]'s [useFrame]) *)

Definition Rleb (x y : R) : bool := if Rle_dec x y then true else false.

(** [THREE.MathUtils.smoothstep (x, min, max)]. *)
Definition smoothstep (x min max : R) : R :=
  if Rleb x min then 0
  else if Rleb max x then 1
  else let x := (x - min) / (max - min) in x * x * (3 - 2 * x).

(** [trunkRef.current.scale.set (trunkScale, ease, trunkScale)]. *)
Definition trunkScale (easeV : R) : vec3 R :=
  let trunkScale := smoothstep easeV 0.3 1.0 in
  V3 trunkScale easeV trunkScale.

(** ** The camera rig ([Rig] in Experience.tsx) *)

Record RigState : Type := MkRig { rig_z : R; rig_y : R }.

Definition initialRig : RigState := MkRig 18 0.

Definition rigTargetZ (state : AppState) (zoomOffset : R) : R :=
  let baseZ := match state with CHAOS => 22 | FORMED => 16 end in
  Rmax 5 (Rmin (baseZ + zoomOffset) 50).

Definition rigFrame (state : AppState) (zoomOffset delta : R) (s : RigState)
  : RigState :=
  let targetZ := rigTargetZ state zoomOffset in
  let targetY := match state with CHAOS => 2 | FORMED => 0 end in
  MkRig (damp (rig_z s) targetZ 3 delta) (damp (rig_y s) targetY 3 delta).

(** [camera.position.z] and [camera.position.y] at elapsed time [t]. *)
Definition cameraZ (t : R) (s : RigState) : R := rig_z s + sin (t * 0.15) * 1.5.
Definition cameraY (t : R) (s : RigState) : R := rig_y s + cos (t * 0.12) * 0.8.

Definition rigRun (fs : list (AppState * R * R)) (s : RigState) : RigState :=
  fold_left (fun acc '(state, zoomOffset, delta) =>
               rigFrame state zoomOffset delta acc) fs s.

(** ** Snow ([Snowfall] in Experience.tsx) *)

Record Flake : Type := MkFlake {
  fl_x : R; fl_y : R; fl_z : R; fl_speed : R; fl_wobble : R; fl_size : R
}.

Definition generateFlake (rnd : nat -> R) (i : nat) : Flake :=
  MkFlake ((rnd (6 * i)%nat - 0.5) * 60)
          (rnd (6 * i + 1)%nat * 40 - 10)
          ((rnd (6 * i + 2)%nat - 0.5) * 60)
          (0.5 + rnd (6 * i + 3)%nat * 1.5)
          (rnd (6 * i + 4)%nat * PI * 2)
          (0.02 + rnd (6 * i + 5)%nat * 0.04).

(** The component makes [count = 800] flakes. *)
Definition generateSnow (rnd : nat -> R) (count : nat) : list Flake :=
  for_loop count (fun i positions => positions ++ [generateFlake rnd i]) [].

(** One pass of the [forEach] body on a flake, in a frame whose mesh is
    mounted; [k] counts the calls of [Math.random ()] made so far by the
    frames. *)
Definition flakeFall (rnd : nat -> R) (k : nat) (flake : Flake) : Flake * nat :=
  let y := fl_y flake - fl_speed flake * 0.03 in
  if Rltb y (- 15)
  then (MkFlake ((rnd k - 0.5) * 60) 25 ((rnd (S k) - 0.5) * 60)
                (fl_speed flake) (fl_wobble flake) (fl_size flake),
        S (S k))
  else (MkFlake (fl_x flake) y (fl_z flake)
                (fl_speed flake) (fl_wobble flake) (fl_size flake),
        k).

Fixpoint snowFrame (rnd : nat -> R) (k : nat) (flakes : list Flake)
  : list Flake * nat :=
  match flakes with
  | [] => ([], k)
  | flake :: rest =>
      let '(flake', k') := flakeFall rnd k flake in
      let '(rest', k'') := snowFrame rnd k' rest in
      (flake' :: rest', k'')
  end.

Fixpoint snowFrames (rnd : nat -> R) (n k : nat) (flakes : list Flake)
  : list Flake * nat :=
  match n with
  | O => (flakes, k)
  | S m => let '(flakes', k') := snowFrame rnd k flakes in
           snowFrames rnd m k' flakes'
  end.

(** ** Statement helpers *)

(** A random source as [Math.random ()] gives it: values in [[0, 1)]. *)
Definition unit_random (rnd : nat -> R) : Prop := forall k, 0 <= rnd k < 1.

(** Distance of a point from the vertical axis. *)
Definition horizontal (p : vec3 R) : R := sqrt (vx p * vx p + vz p * vz p).

(** The panels the selection effect sees for a list of photo objects, the
    world position of the [i]-th mounted group being [world i]. *)
Definition panelsOf (world : nat -> option (vec3 R)) (photos : list ParticleData)
  : list PhotoPanel :=
  map (fun '(i, p) => Panel (image p) (world i))
      (combine (seq 0 (List.length photos)) photos).

(** The rotation speed a tick of [TreeSystem] uses. *)
Definition frameSpin (f : FrameInput) : R :=
  match f_state f with
  | FORMED => f_rotationSpeed f + f_rotationBoost f
  | CHAOS => 0.08
  end * f_delta f.

(** Loop invariant of the scan that also records where in the list the
    running minimum was found. *)
Definition first_nearest (project : vec3 R -> vec3 R) (pointer : PointerCoords)
           (seen : list PhotoPanel) (acc : option string * option R) : Prop :=
  match acc with
  | (None, None) =>
      forall obj d, In obj seen -> screenDistance project pointer obj = Some d ->
                    SELECTION_THRESHOLD <= d
  | (Some id, Some m) =>
      m < SELECTION_THRESHOLD
      /\ exists before obj after,
          seen = before ++ obj :: after
          /\ panel_image obj = id
          /\ screenDistance project pointer obj = Some m
          /\ (forall o d, In o before ->
                          screenDistance project pointer o = Some d -> m < d)
          /\ (forall o d, In o after ->
                          screenDistance project pointer o = Some d -> m <= d)
  | _ => False
  end.



(** The event is the success callback of a load of [url]. *)
Definition loads (url : string) (e : CacheEvent) : bool :=
  match e with
  | LoadedEv u _ _ => String.eqb u url
  | _ => false
  end.

(** What the texture cache keeps true: no url is handed to [loader.load]
    twice, and every url handed over is in one of the two maps. *)
Definition cache_ok (s : TextureStore) : Prop :=
  NoDup (issued s)
  /\ forall u, In u (issued s) ->
               textureCache s u <> None \/ loadingPromises s u <> None.

(** The states a photo's loading can be in. *)
Definition photo_shape (url fallbackUrl : string) (s : PhotoLoad) : Prop :=
  s = PLoad st_pending None NoCallback []
  \/ s = PLoad st_loading None OnPrimary [url]
  \/ s = PLoad st_loading None OnFallback [fallbackUrl; url]
  \/ (exists tex, s = PLoad st_loaded (Some tex) NoCallback [url])
  \/ (exists tex, s = PLoad st_loaded (Some tex) NoCallback [fallbackUrl; url])
  \/ s = PLoad st_error None NoCallback [fallbackUrl; url].

(** Where a snowflake can be. *)
Definition flake_ok (flake : Flake) : Prop :=
  - 30 <= fl_x flake <= 30
  /\ - 15 <= fl_y flake <= 30
  /\ - 30 <= fl_z flake <= 30
  /\ 0.5 <= fl_speed flake < 2.

(* ================================================================== *)
(** * Properties *)

(** ** Real arithmetic helpers *)

Ltac unfold_num :=
  cbv [lit add sub mul neg Math_sqrt Math_cos Math_sin Math_exp Math_atan2
       Num_R Num_js].

Ltac unfold_blend :=
  cbv [foliageBlend lightsBlend photosBlend polarBlend ornamentsBlend
       foliageVortex foliageCoRotation lightsVortex lightsCoRotation
       ornamentsVortex ornamentsCoRotation photosVortex photosCoRotation
       ofCyl radius azimuth lerp vx vy vz cyl_h cyl_r cyl_angle];
  unfold_num.

Lemma lerp_R (x y t : R) : lerp x y t = (1 - t) * x + t * y.
Proof. reflexivity. Qed.

Lemma lerp_one (x y : R) : lerp x y 1 = y.
Proof. rewrite lerp_R. ring. Qed.

Lemma lerp_zero (x y : R) : lerp x y 0 = x.
Proof. rewrite lerp_R. ring. Qed.

(** *** [atan2] inverts the cylinder reading *)

Lemma sqrt_hyp_factor (x z : R) :
  x <> 0 -> sqrt (x * x + z * z) = Rabs x * sqrt (1 + (z / x)²).
Proof.
  intros Hx.
  replace (x * x + z * z) with (x² * (1 + (z / x)²)) by (unfold Rsqr; field; exact Hx).
  rewrite sqrt_mult_alt by apply Rle_0_sqr.
  now rewrite sqrt_Rsqr_abs.
Qed.

Lemma sqrt_one_sqr_pos (t : R) : 0 < sqrt (1 + t²).
Proof. apply sqrt_lt_R0. pose proof (Rle_0_sqr t). lra. Qed.

Lemma cos_shift_back (a : R) : cos (a - PI) = - cos a.
Proof. rewrite cos_minus, cos_PI, sin_PI. ring. Qed.

Lemma sin_shift_back (a : R) : sin (a - PI) = - sin a.
Proof. rewrite sin_minus, cos_PI, sin_PI. ring. Qed.

Lemma polar_cos (x z : R) : sqrt (x * x + z * z) * cos (atan2 z x) = x.
Proof.
  unfold atan2.
  destruct (Rlt_dec 0 x) as [Hp | Hp].
  - rewrite sqrt_hyp_factor by lra. rewrite cos_atan, Rabs_pos_eq by lra.
    pose proof (sqrt_one_sqr_pos (z / x)). field. lra.
  - destruct (Rlt_dec x 0) as [Hn | Hn].
    + pose proof (sqrt_one_sqr_pos (z / x)).
      rewrite sqrt_hyp_factor by lra. rewrite Rabs_left by lra.
      destruct (Rle_dec 0 z).
      * rewrite neg_cos, cos_atan. field. lra.
      * rewrite cos_shift_back, cos_atan. field. lra.
    + assert (x = 0) by lra. subst x.
      destruct (Rlt_dec 0 z); [| destruct (Rlt_dec z 0)].
      * rewrite cos_PI2. ring.
      * rewrite cos_neg, cos_PI2. ring.
      * assert (z = 0) by lra. subst z.
        replace (0 * 0 + 0 * 0) with 0 by ring. rewrite sqrt_0. ring.
Qed.

Lemma polar_sin (x z : R) : sqrt (x * x + z * z) * sin (atan2 z x) = z.
Proof.
  unfold atan2.
  destruct (Rlt_dec 0 x) as [Hp | Hp].
  - rewrite sqrt_hyp_factor by lra. rewrite sin_atan, Rabs_pos_eq by lra.
    pose proof (sqrt_one_sqr_pos (z / x)). field. lra.
  - destruct (Rlt_dec x 0) as [Hn | Hn].
    + pose proof (sqrt_one_sqr_pos (z / x)).
      rewrite sqrt_hyp_factor by lra. rewrite Rabs_left by lra.
      destruct (Rle_dec 0 z).
      * rewrite neg_sin, sin_atan. field. lra.
      * rewrite sin_shift_back, sin_atan. field. lra.
    + assert (x = 0) by lra. subst x.
      replace (0 * 0 + z * z) with (z²) by (unfold Rsqr; ring).
      rewrite sqrt_Rsqr_abs.
      destruct (Rlt_dec 0 z); [| destruct (Rlt_dec z 0)].
      * rewrite sin_PI2, Rabs_pos_eq by lra. ring.
      * rewrite sin_neg, sin_PI2, Rabs_left by lra. ring.
      * assert (z = 0) by lra. subst z. rewrite Rabs_R0. ring.
Qed.

(** C1: at [ease = 1] the blend is the tree point's cylinder reading turned
    by the rotation angle (height [ty], radius of [t], azimuth of [t] plus
    [treeRotation], no vortex term); at [ease = 0] it is the chaos point's
    cylinder reading turned by [treeRotation * coRotation], with no
    dependence on the tree point. *)
Theorem polarBlend_endpoints (vortexStrength coRotation : R) (c t : vec3 R)
        (treeRotation : R) :
  polarBlend vortexStrength coRotation c t 1 treeRotation
    = ofCyl (radius t) (azimuth t + treeRotation) (vy t)
  /\ polarBlend vortexStrength coRotation c t 0 treeRotation
     = ofCyl (radius c) (azimuth c + treeRotation * coRotation) (vy c).
Proof.
  destruct c as [cx cy cz], t as [tx ty tz].
  split; unfold_blend; f_equal; try ring.
  - replace (atan2 tz tx + (1 - 1) * vortexStrength + treeRotation)
      with (atan2 tz tx + treeRotation) by ring.
    ring.
  - replace (atan2 tz tx + (1 - 1) * vortexStrength + treeRotation)
      with (atan2 tz tx + treeRotation) by ring.
    ring.
Qed.

(** C2: the ease curve is [p^2 (3 - 2p)]; it fixes 0, 1/2 and 1 and is
    monotonically non-decreasing on [[0,1]]. *)
Theorem ease_smoothstep :
  (forall p : R, ease p = p ^ 2 * (3 - 2 * p))
  /\ ease 0 = 0 /\ ease 1 = 1 /\ ease (1 / 2) = 1 / 2
  /\ (forall a b : R, 0 <= a -> a <= b -> b <= 1 -> ease a <= ease b).
Proof.
  unfold ease; unfold_num.
  repeat split; intros; try field.
  assert (Hfac : b * b * (3 - 2 * b) - a * a * (3 - 2 * a)
                 = (b - a) * (3 * (a + b) - 2 * (a * a + a * b + b * b)))
    by ring.
  assert (0 <= 3 * (a + b) - 2 * (a * a + a * b + b * b)) by nra.
  assert (0 <= (b - a) * (3 * (a + b) - 2 * (a * a + a * b + b * b)))
    by (apply Rmult_le_pos; lra).
  lra.
Qed.

(** ** The blend at full formation *)

Lemma polarBlend_same_point (vortexStrength coRotation : R) (p : vec3 R)
      (treeRotation : R) :
  polarBlend vortexStrength coRotation p p 1 treeRotation
  = V3 (vx p * cos treeRotation - vz p * sin treeRotation)
       (vy p)
       (vx p * sin treeRotation + vz p * cos treeRotation).
Proof.
  destruct (polarBlend_endpoints vortexStrength coRotation p p treeRotation)
    as [-> _].
  destruct p as [x y z]. unfold ofCyl, radius, azimuth; unfold_num.
  cbv [vx vy vz].
  rewrite cos_plus, sin_plus.
  pose proof (polar_cos x z) as Hc. pose proof (polar_sin x z) as Hs.
  set (rho := sqrt (x * x + z * z)) in *.
  set (theta := atan2 z x) in *.
  f_equal.
  - transitivity (rho * cos theta * cos treeRotation
                  - rho * sin theta * sin treeRotation); [ring |].
    now rewrite Hc, Hs.
  - transitivity (rho * sin theta * cos treeRotation
                  + rho * cos theta * sin treeRotation); [ring |].
    rewrite Hc, Hs. ring.
Qed.

(** C6, as stated, fails: with the point (1, 0, 0) on both sides, at
    [ease = 1] and an accumulated rotation of [PI], the blend returns
    (-1, 0, 0). *)
Lemma polarBlend_fixed_point_fails :
  polarBlend foliageVortex foliageCoRotation (V3 1 0 0) (V3 1 0 0) 1 PI
  <> V3 1 0 0.
Proof.
  rewrite polarBlend_same_point. cbv [vx vy vz].
  rewrite cos_PI, sin_PI. intros Heq.
  apply (f_equal vx) in Heq. cbv [vx] in Heq. lra.
Qed.

(** C6, amended: with a stored tree point [p] on both sides, the blend at
    [ease = 1] is [p] turned about the vertical axis by the accumulated
    rotation angle; it is [p] itself when that angle is 0 or any whole
    number of turns. *)
Theorem polarBlend_tree_point_rotated (vortexStrength coRotation : R)
        (p : vec3 R) (treeRotation : R) :
  polarBlend vortexStrength coRotation p p 1 treeRotation
  = V3 (vx p * cos treeRotation - vz p * sin treeRotation)
       (vy p)
       (vx p * sin treeRotation + vz p * cos treeRotation)
  /\ polarBlend vortexStrength coRotation p p 1 0 = p
  /\ forall k : nat,
       polarBlend vortexStrength coRotation p p 1 (2 * INR k * PI) = p.
Proof.
  split; [apply polarBlend_same_point |].
  assert (Hturns : forall k : nat,
             polarBlend vortexStrength coRotation p p 1 (2 * INR k * PI) = p).
  { intros k. rewrite polarBlend_same_point.
    replace (2 * INR k * PI) with (0 + 2 * INR k * PI) by ring.
    rewrite cos_period, sin_period, cos_0, sin_0.
    destruct p as [x y z]; cbv [vx vy vz]. f_equal; ring. }
  split; [| exact Hturns].
  specialize (Hturns 0%nat). cbn [INR] in Hturns.
  replace (2 * 0 * PI) with 0 in Hturns by ring. exact Hturns.
Qed.

(** ** The per-population constants *)

(** C7, as stated, fails: the ornaments' vortex strength equals the
    lights', and the photos' co-rotation factor is above the ornaments'. *)
Lemma population_constants_not_strictly_layered :
  ~ ((foliageVortex > lightsVortex /\ lightsVortex > ornamentsVortex
      /\ ornamentsVortex > photosVortex)
     /\ (foliageCoRotation > lightsCoRotation
         /\ lightsCoRotation > ornamentsCoRotation
         /\ ornamentsCoRotation > photosCoRotation) :> Prop).
Proof.
  cbv [foliageVortex lightsVortex ornamentsVortex photosVortex
       foliageCoRotation lightsCoRotation ornamentsCoRotation
       photosCoRotation]; unfold_num.
  lra.
Qed.

(** C7, amended: the vortex strengths are 15 (foliage), 12 (lights),
    12 (ornaments), 10 (photos), so foliage > lights = ornaments > photos;
    the co-rotation factors are 0.5, 0.3, 0.15, 0.2, so
    foliage > lights > photos > ornaments. *)
Theorem population_constants_order :
  (foliageVortex = 15 /\ lightsVortex = 12 /\ ornamentsVortex = 12
   /\ photosVortex = 10)
  /\ (foliageVortex > lightsVortex /\ lightsVortex = ornamentsVortex
      /\ ornamentsVortex > photosVortex)
  /\ (foliageCoRotation = 0.5 /\ lightsCoRotation = 0.3
      /\ ornamentsCoRotation = 0.15 /\ photosCoRotation = 0.2)
  /\ (foliageCoRotation > lightsCoRotation
      /\ lightsCoRotation > photosCoRotation
      /\ photosCoRotation > ornamentsCoRotation).
Proof.
  cbv [foliageVortex lightsVortex ornamentsVortex photosVortex
       foliageCoRotation lightsCoRotation ornamentsCoRotation
       photosCoRotation]; unfold_num.
  repeat split; lra.
Qed.

(** ** The damped clock *)

Lemma exp_INR_mult (m : nat) (x : R) : exp (INR m * x) = exp x ^ m.
Proof.
  induction m as [| m IH].
  - simpl. rewrite Rmult_0_l. apply exp_0.
  - rewrite S_INR, Rmult_plus_distr_r, Rmult_1_l, exp_plus, IH. simpl. ring.
Qed.

Lemma nine_eighths_pow : 10000 < (9 / 8) ^ 80.
Proof.
  assert (H10 : 3 < (9 / 8) ^ 10) by (simpl; lra).
  assert (H20 : 9 < (9 / 8) ^ 20).
  { change 20%nat with (10 + 10)%nat. rewrite pow_add. nra. }
  assert (H40 : 81 < (9 / 8) ^ 40).
  { change 40%nat with (20 + 20)%nat. rewrite pow_add. nra. }
  change 80%nat with (40 + 40)%nat. rewrite pow_add. nra.
Qed.

Lemma exp_minus_ten : exp (- 10) < 1 / 10000.
Proof.
  assert (Hpow : (9 / 8) ^ 80 <= exp (1 / 8) ^ 80).
  { apply pow_incr. pose proof (exp_ineq1_le (1 / 8)). lra. }
  rewrite <- exp_INR_mult in Hpow.
  replace (INR 80 * (1 / 8)) with 10 in Hpow
    by (change 80%nat with (Z.to_nat 80); rewrite INR_IZR_INZ; simpl; lra).
  pose proof nine_eighths_pow as Hnum.
  assert (Hbig : 10000 < exp 10) by lra.
  assert (Hinv : exp (- 10) * exp 10 = 1).
  { rewrite <- exp_plus. replace (- 10 + 10) with 0 by ring. apply exp_0. }
  pose proof (exp_pos (- 10)). nra.
Qed.

(** One tick leaves the fraction [exp (- 2.5 dt)] of the remaining gap. *)
Lemma advance_gap (target dt p : R) :
  target - advance target dt p = exp (- (2.5) * dt) * (target - p).
Proof. unfold advance, damp, lerp; unfold_num. ring. Qed.

Lemma ticks_succ (n : nat) (target dt p : R) :
  ticks (S n) target dt p = advance target dt (ticks n target dt p).
Proof.
  revert p. induction n as [| n IH]; intros p; [reflexivity |].
  change (ticks (S (S n)) target dt p)
    with (ticks (S n) target dt (advance target dt p)).
  rewrite IH. reflexivity.
Qed.

Lemma ticks_gap (n : nat) (target dt p : R) :
  target - ticks n target dt p
  = exp (- (INR n * (2.5 * dt))) * (target - p).
Proof.
  induction n as [| n IH].
  - simpl. rewrite Rmult_0_l, Ropp_0, exp_0. ring.
  - rewrite ticks_succ, advance_gap, IH, S_INR.
    replace (- ((INR n + 1) * (2.5 * dt)))
      with (- (2.5) * dt + - (INR n * (2.5 * dt))) by ring.
    rewrite exp_plus. ring.
Qed.

Lemma damping_factor (dt : R) : 0 < dt -> 0 < exp (- (2.5) * dt) < 1.
Proof.
  intros Hdt. split; [apply exp_pos |].
  rewrite <- exp_0. apply exp_increasing. nra.
Qed.

Lemma ticks_within (n : nat) (target dt p : R) :
  Rabs (target - p) <= 1 -> 10 <= INR n * (2.5 * dt) ->
  Rabs (target - ticks n target dt p) < 1 / 10000.
Proof.
  intros Hgap Hlong.
  rewrite ticks_gap, Rabs_mult, (Rabs_pos_eq (exp _)) by (left; apply exp_pos).
  assert (Hexp : exp (- (INR n * (2.5 * dt))) <= exp (- 10)).
  { destruct Hlong as [Hlt | Heq].
    - left. apply exp_increasing. lra.
    - right. now rewrite <- Heq. }
  pose proof exp_minus_ten. pose proof (exp_pos (- (INR n * (2.5 * dt)))).
  pose proof (Rabs_pos (target - p)). nra.
Qed.

(** C3: along the ticks of the damped clock, with a constant positive
    [delta] and a fixed target 0 or 1 and a start in [[0,1]], progress moves
    strictly toward the target while it differs from it and never passes
    or leaves it; from tick [N] on, with [N] at most [4 / delta + 1], it is
    within 1e-4 of the target; and 300 ticks of 1/60 s toward 1 bring it
    above 0.99. *)
Theorem damping_approaches_target (delta progress0 target : R) :
  0 < delta -> 0 <= progress0 <= 1 -> target = 0 \/ target = 1 ->
  (forall n : nat,
      let p := ticks n target delta progress0 in
      let p' := ticks (S n) target delta progress0 in
      (p < target -> p < p' < target)
      /\ (target < p -> target < p' < p)
      /\ (p = target -> p' = target))
  /\ (exists N : nat,
         INR N <= 4 / delta + 1
         /\ forall n : nat, (N <= n)%nat ->
              Rabs (target - ticks n target delta progress0) < 1 / 10000)
  /\ (forall p : R, 0 <= p <= 1 -> 99 / 100 < ticks 300 1 (1 / 60) p).
Proof.
  intros Hdt Hp0 Htarget.
  assert (Hstart : Rabs (target - progress0) <= 1).
  { apply Rabs_le. destruct Htarget; subst target; lra. }
  split; [| split].
  - intros n p p'. subst p'. rewrite ticks_succ. fold p.
    pose proof (advance_gap target delta p) as Hgap.
    pose proof (damping_factor delta Hdt) as Hk.
    set (k := exp (- (2.5) * delta)) in *.
    repeat split; intros; nra.
  - pose proof (archimed (4 / delta)) as [Hup1 Hup2].
    assert (Hpos : 0 < 4 / delta) by (apply Rdiv_lt_0_compat; lra).
    assert (Hz : (0 <= up (4 / delta))%Z).
    { apply le_IZR. lra. }
    exists (Z.to_nat (up (4 / delta))).
    assert (HN : INR (Z.to_nat (up (4 / delta))) = IZR (up (4 / delta))).
    { rewrite INR_IZR_INZ, Z2Nat.id by exact Hz. reflexivity. }
    split; [rewrite HN; lra |].
    intros n Hn. apply ticks_within; [exact Hstart |].
    apply le_INR in Hn. rewrite HN in Hn.
    assert (4 / delta < INR n) by lra.
    assert (4 < INR n * delta).
    { apply Rmult_lt_reg_r with (/ delta); [now apply Rinv_0_lt_compat |].
      rewrite Rmult_assoc, Rinv_r by lra. lra. }
    lra.
  - intros p Hp.
    assert (Hclose : Rabs (1 - ticks 300 1 (1 / 60) p) < 1 / 10000).
    { apply ticks_within; [apply Rabs_le; lra |].
      change 300%nat with (Z.to_nat 300). rewrite INR_IZR_INZ. simpl. lra. }
    apply Rabs_def2 in Hclose. lra.
Qed.

(** The damped clock at delta = 1/60, from progress 0 toward target 1. *)
Lemma damping_approaches_target_witness :
  0 < 1 / 60 /\ 0 <= 0 <= 1 /\ (1 = 0 \/ 1 = 1)
  /\ 99 / 100 < ticks 300 1 (1 / 60) 0.
Proof.
  assert (Hdt : 0 < 1 / 60) by lra.
  assert (Hp : 0 <= 0 <= 1) by lra.
  assert (Ht : 1 = 0 \/ 1 = 1) by (right; reflexivity).
  repeat split; try lra; try (right; reflexivity).
  destruct (damping_approaches_target (1 / 60) 0 1 Hdt Hp Ht) as (_ & _ & H300).
  apply H300. lra.
Defined.

(** ** JavaScript numbers: where NaN can and cannot arise *)

Lemma js_sqrt_hyp (x z : R) :
  js_sqrt (Fin (x * x + z * z)) = Fin (sqrt (x * x + z * z)).
Proof.
  unfold js_sqrt. destruct (Rlt_dec (x * x + z * z) 0) as [Hneg |]; [| reflexivity].
  exfalso. nra.
Qed.

(** On finite inputs the blend over [jsnum] is the blend over [R]: no step
    of it leaves the finite numbers. *)
Lemma polarBlend_finite (vortexStrength coRotation : R) (c t : vec3 R)
      (e treeRotation : R) :
  polarBlend (Fin vortexStrength) (Fin coRotation)
             (vec3_map Fin c) (vec3_map Fin t) (Fin e) (Fin treeRotation)
  = vec3_map Fin (polarBlend vortexStrength coRotation c t e treeRotation).
Proof.
  destruct c as [cx cy cz], t as [tx ty tz].
  unfold_blend. cbv [vec3_map vx vy vz].
  cbn [js_add js_sub js_mul js_neg]. rewrite !js_sqrt_hyp.
  reflexivity.
Qed.

(** A NaN coordinate does propagate through the blend. *)
Example polarBlend_NaN_propagates :
  vx (polarBlend (Fin 15) (Fin 0.5) (V3 NaN (Fin 0) (Fin 0))
                 (V3 (Fin 1) (Fin 0) (Fin 0)) (Fin (1 / 2)) (Fin 0)) = NaN.
Proof. reflexivity. Qed.

(** C8: with both points on the vertical axis ([x = z = 0]), for every
    finite ease (in particular every ease in [[0,1]]) and every finite
    rotation angle, [Math.atan2 (0, 0)] is 0 and the blend is the finite
    point (0, lerp (cy, ty, ease), 0): no coordinate is NaN. *)
Theorem polarBlend_zero_radius (vortexStrength coRotation cy ty e
                                treeRotation : R) :
  Math_atan2 (Fin 0) (Fin 0) = Fin 0
  /\ polarBlend (Fin vortexStrength) (Fin coRotation)
                (V3 (Fin 0) (Fin cy) (Fin 0)) (V3 (Fin 0) (Fin ty) (Fin 0))
                (Fin e) (Fin treeRotation)
     = V3 (Fin 0) (Fin (lerp cy ty e)) (Fin 0)
  /\ vec3_finite
       (polarBlend (Fin vortexStrength) (Fin coRotation)
                   (V3 (Fin 0) (Fin cy) (Fin 0)) (V3 (Fin 0) (Fin ty) (Fin 0))
                   (Fin e) (Fin treeRotation)) = true.
Proof.
  assert (Hat : atan2 0 0 = 0).
  { unfold atan2. repeat (destruct (Rlt_dec _ _); [lra |]). reflexivity. }
  assert (Hblend :
            polarBlend (Fin vortexStrength) (Fin coRotation)
                       (V3 (Fin 0) (Fin cy) (Fin 0)) (V3 (Fin 0) (Fin ty) (Fin 0))
                       (Fin e) (Fin treeRotation)
            = V3 (Fin 0) (Fin (lerp cy ty e)) (Fin 0)).
  { change (V3 (Fin 0) (Fin cy) (Fin 0)) with (vec3_map Fin (V3 0 cy 0)).
    change (V3 (Fin 0) (Fin ty) (Fin 0)) with (vec3_map Fin (V3 0 ty 0)).
    rewrite polarBlend_finite. unfold_blend. cbv [vec3_map vx vy vz].
    replace (0 * 0 + 0 * 0) with 0 by ring. rewrite sqrt_0.
    f_equal; f_equal; ring. }
  split; [| split].
  - unfold_num. cbn [js_atan2]. now rewrite Hat.
  - exact Hblend.
  - rewrite Hblend. reflexivity.
Qed.

(** ** The selection effect *)

Lemma Rltb_true (x y : R) : Rltb x y = true <-> x < y.
Proof.
  unfold Rltb. destruct (Rlt_dec x y); split; intros; congruence || assumption.
Qed.

Lemma Rltb_false (x y : R) : Rltb x y = false <-> y <= x.
Proof.
  unfold Rltb. destruct (Rlt_dec x y); split; intros; try congruence; lra.
Qed.

Lemma truthy_Some (u : string) : u <> EmptyString -> truthy (Some u) = true.
Proof.
  intros Hne. simpl. destruct (String.eqb_spec u EmptyString); [contradiction | reflexivity].
Qed.

Section SelectionProps.
Variable project : vec3 R -> vec3 R.
Variable pointer : PointerCoords.

Lemma scanned_step (seen : list PhotoPanel) acc (obj : PhotoPanel) :
  scanned project pointer seen acc ->
scanned project pointer (seen ++ [obj]) (scanPanel project pointer acc obj).
Proof.
  intros Hacc. unfold scanPanel.
  destruct (screenDistance project pointer obj) as [dist |] eqn:Hd.
  - destruct (Rltb dist SELECTION_THRESHOLD) eqn:Hthr; cbn [andb].
    + apply Rltb_true in Hthr.
      destruct acc as [[id |] [m |]]; cbn [snd below scanned] in *;
        try contradiction.
      * destruct (Rltb dist m) eqn:Hlt.
        -- apply Rltb_true in Hlt. destruct Hacc as (Hm & _ & Hmin).
           split; [exact Hthr | split].
           ++ exists obj. rewrite in_app_iff. simpl. auto.
           ++ intros o d Hin Ho. apply in_app_iff in Hin as [Hin | [<- | []]].
              ** specialize (Hmin o d Hin Ho). lra.
              ** rewrite Hd in Ho. injection Ho as <-. lra.
        -- apply Rltb_false in Hlt. destruct Hacc as (Hm & (o0 & Hin0 & Hid & Hd0) & Hmin).
           split; [exact Hm | split].
           ++ exists o0. rewrite in_app_iff. auto.
           ++ intros o d Hin Ho. apply in_app_iff in Hin as [Hin | [<- | []]].
              ** exact (Hmin o d Hin Ho).
              ** rewrite Hd in Ho. injection Ho as <-. exact Hlt.
      * split; [exact Hthr | split].
        -- exists obj. rewrite in_app_iff. simpl. auto.
        -- intros o d Hin Ho. apply in_app_iff in Hin as [Hin | [<- | []]].
           ++ specialize (Hacc o d Hin Ho). lra.
           ++ rewrite Hd in Ho. injection Ho as <-. lra.
    + apply Rltb_false in Hthr.
      destruct acc as [[id |] [m |]]; cbn [scanned] in *; try contradiction.
      * destruct Hacc as (Hm & (o0 & Hin0 & Hid & Hd0) & Hmin).
        split; [exact Hm | split].
        -- exists o0. rewrite in_app_iff. auto.
        -- intros o d Hin Ho. apply in_app_iff in Hin as [Hin | [<- | []]].
           ++ exact (Hmin o d Hin Ho).
           ++ rewrite Hd in Ho. injection Ho as <-. lra.
      * intros o d Hin Ho. apply in_app_iff in Hin as [Hin | [<- | []]].
        -- exact (Hacc o d Hin Ho).
        -- rewrite Hd in Ho. injection Ho as <-. exact Hthr.
  - destruct acc as [[id |] [m |]]; cbn [scanned] in *; try contradiction.
    + destruct Hacc as (Hm & (o0 & Hin0 & Hid & Hd0) & Hmin).
      split; [exact Hm | split].
      * exists o0. rewrite in_app_iff. auto.
      * intros o d Hin Ho. apply in_app_iff in Hin as [Hin | [<- | []]].
        -- exact (Hmin o d Hin Ho).
        -- congruence.
    + intros o d Hin Ho. apply in_app_iff in Hin as [Hin | [<- | []]].
      * exact (Hacc o d Hin Ho).
      * congruence.
Qed.

Lemma scanned_fold (rest seen : list PhotoPanel) acc :
  scanned project pointer seen acc ->
  scanned project pointer (seen ++ rest)
        (fold_left (scanPanel project pointer) rest acc).
Proof.
  revert seen acc. induction rest as [| obj rest IH]; intros seen acc Hacc.
  - now rewrite app_nil_r.
  - cbn [fold_left].
    replace (seen ++ obj :: rest) with ((seen ++ [obj]) ++ rest)
      by (rewrite <- app_assoc; reflexivity).
    apply IH, scanned_step, Hacc.
Qed.

(** The search returns a nearest in-front panel when one is within the
    threshold, and nothing otherwise. *)
Lemma closestPhoto_spec (photoObjects : list PhotoPanel) :
  match closestPhoto project pointer photoObjects with
  | Some id =>
      exists obj d,
        In obj photoObjects /\ panel_image obj = id
        /\ screenDistance project pointer obj = Some d /\ d < SELECTION_THRESHOLD
        /\ forall obj' d', In obj' photoObjects -> screenDistance project pointer obj' = Some d' ->
                           d <= d'
  | None =>
      forall obj d, In obj photoObjects -> screenDistance project pointer obj = Some d ->
                    SELECTION_THRESHOLD <= d
  end.
Proof.
  unfold closestPhoto.
  pose proof (scanned_fold photoObjects [] (None, None)) as Hinv.
  cbn [app] in Hinv.
  destruct (fold_left _ photoObjects (None, None)) as [[id |] [m |]];
    cbn [fst scanned] in *.
  - destruct Hinv as (Hm & (o & Hin & Hid & Hd) & Hmin); [intros ? ? [] |].
    exists o, m. auto.
  - exfalso. apply Hinv. intros ? ? [].
  - exfalso. apply Hinv. intros ? ? [].
  - apply Hinv. intros ? ? [].
Qed.
End SelectionProps.


Lemma closestPhoto_nonempty project pointer photoObjects id :
  nonempty_images photoObjects ->
  closestPhoto project pointer photoObjects = Some id ->
  truthy (Some id) = true.
Proof.
  intros Hne Hclosest.
  pose proof (closestPhoto_spec project pointer photoObjects) as Hspec.
  rewrite Hclosest in Hspec. destruct Hspec as (obj & d & Hin & Hid & _).
  apply truthy_Some. subst id.
  unfold nonempty_images in Hne. rewrite Forall_forall in Hne. auto.
Qed.

(** A panel at the origin, seen through the identity projection, is at
    distance 0 from a pointer at the centre of the screen. *)
Lemma screenDistance_centre (image : string) :
  screenDistance (fun v => v) (Pointer (1 / 2) (1 / 2))
                 (Panel image (Some (V3 0 0 0))) = Some 0.
Proof.
  unfold screenDistance, ndcX, ndcY, Math_hypot.
  cbn [panel_ref vx vy vz pointer_x pointer_y].
  assert (Hz : Rltb 0 1 = true) by (apply Rltb_true; lra).
  rewrite Hz. f_equal.
  replace (0 - (1 / 2 * 2 - 1)) with 0 by lra.
  replace (0 - (- (1 / 2 * 2) + 1)) with 0 by lra.
  replace (0 * 0 + 0 * 0) with 0 by lra. apply sqrt_0.
Qed.

Lemma closestPhoto_centre (image : string) :
  closestPhoto (fun v => v) (Pointer (1 / 2) (1 / 2))
               [Panel image (Some (V3 0 0 0))] = Some image.
Proof.
  unfold closestPhoto. cbn [fold_left]. unfold scanPanel.
  rewrite screenDistance_centre. cbn [panel_image snd below].
  assert (Hthr : Rltb 0 SELECTION_THRESHOLD = true)
    by (apply Rltb_true; unfold SELECTION_THRESHOLD; lra).
  rewrite Hthr. reflexivity.
Qed.

(** The loop computes a distance for a panel exactly when the panel is
    mounted and projects to a depth below 1, and the distance is then the
    Euclidean one between the projected point and the pointer in normalized
    device coordinates. *)
Lemma screenDistance_Some (project : vec3 R -> vec3 R) (pointer : PointerCoords)
      (obj : PhotoPanel) (d : R) :
  screenDistance project pointer obj = Some d
  <-> exists w,
      panel_ref obj = Some w
      /\ vz (project w) < 1
      /\ d = sqrt ((vx (project w) - (pointer_x pointer * 2 - 1))
                   * (vx (project w) - (pointer_x pointer * 2 - 1))
                   + (vy (project w) - (- (pointer_y pointer * 2) + 1))
                     * (vy (project w) - (- (pointer_y pointer * 2) + 1))).
Proof.
  unfold screenDistance, Math_hypot, ndcX, ndcY.
  destruct (panel_ref obj) as [w |].
  - destruct (Rltb (vz (project w)) 1) eqn:Hz.
    + apply Rltb_true in Hz. split.
      * intros Hd. injection Hd as <-. exists w. auto.
      * intros (w' & Hw & _ & ->). injection Hw as <-. reflexivity.
    + apply Rltb_false in Hz. split; [discriminate |].
      intros (w' & Hw & Hlt & _). injection Hw as <-. lra.
  - split; [discriminate | intros (w' & Hw & _); discriminate].
Qed.

(** C4: a trigger with no active selection.  In the dispersed mode, with a
    pointer at screen fraction [(px, py)], write [dist w] for the Euclidean
    distance between the projection of the world position [w] and the
    pointer's normalized device coordinates [(2 px - 1, 1 - 2 py)].  If some
    mounted panel whose projected depth is below 1 has [dist] below 0.05,
    then a panel with these two properties whose [dist] is smallest among
    all mounted panels of projected depth below 1 becomes active and the
    trigger time is recorded; otherwise the selection stays as it was.  In
    the formed mode nothing is evaluated. *)
Theorem trigger_from_idle (project : vec3 R -> vec3 R) (pointer : PointerCoords)
        (now : Z) (photoObjects : list PhotoPanel) (s : Selection) :
  selectedPhotoUrl s = None ->
  nonempty_images photoObjects ->
  let dist := fun w : vec3 R =>
                sqrt ((vx (project w) - (pointer_x pointer * 2 - 1))
                      * (vx (project w) - (pointer_x pointer * 2 - 1))
                      + (vy (project w) - (- (pointer_y pointer * 2) + 1))
                        * (vy (project w) - (- (pointer_y pointer * 2) + 1))) in
  ((exists obj w,
       In obj photoObjects
       /\ panel_ref obj = Some w
       /\ vz (project w) < 1
       /\ dist w < 0.05
       /\ (forall obj' w', In obj' photoObjects ->
                           panel_ref obj' = Some w' ->
                           vz (project w') < 1 ->
                           dist w <= dist w')
       /\ onClickTrigger project CHAOS (Some pointer) now photoObjects s
          = Sel (Some (panel_image obj)) now)
   \/ ((forall obj w, In obj photoObjects ->
                      panel_ref obj = Some w ->
                      vz (project w) < 1 ->
                      0.05 <= dist w)
       /\ onClickTrigger project CHAOS (Some pointer) now photoObjects s = s))
  /\ onClickTrigger project FORMED (Some pointer) now photoObjects s = s.
Proof.
  intros Hidle Hne dist. split; [| reflexivity].
  unfold onClickTrigger. rewrite Hidle. cbn [truthy andb strict_eq].
  pose proof (closestPhoto_spec project pointer photoObjects) as Hspec.
  pose proof (closestPhoto_nonempty project pointer photoObjects) as Htruthy.
  destruct (closestPhoto project pointer photoObjects) as [id |].
  - left. rewrite (Htruthy id Hne eq_refl).
    destruct Hspec as (obj & d & Hin & Hid & Hd & Hthr & Hmin).
    apply screenDistance_Some in Hd as (w & Hw & Hz & Hdw).
    fold (dist w) in Hdw. subst d id.
    exists obj, w.
    split; [exact Hin | split; [exact Hw | split; [exact Hz |]]].
    split; [unfold SELECTION_THRESHOLD in Hthr; exact Hthr |].
    split; [| reflexivity].
    intros obj' w' Hin' Hw' Hz'.
    apply (Hmin obj' (dist w') Hin').
    apply screenDistance_Some. exists w'. auto.
  - right. cbn [truthy]. split; [| reflexivity].
    intros obj w Hin Hw Hz.
    assert (Hfar := Hspec obj (dist w) Hin).
    unfold SELECTION_THRESHOLD in Hfar. apply Hfar.
    apply screenDistance_Some. exists w. auto.
Qed.

Lemma centre_distance (a : R) :
  0 <= a ->
  sqrt ((a - (1 / 2 * 2 - 1)) * (a - (1 / 2 * 2 - 1))
        + (0 - (- (1 / 2 * 2) + 1)) * (0 - (- (1 / 2 * 2) + 1))) = a.
Proof.
  intros Ha.
  replace ((a - (1 / 2 * 2 - 1)) * (a - (1 / 2 * 2 - 1))
           + (0 - (- (1 / 2 * 2) + 1)) * (0 - (- (1 / 2 * 2) + 1)))
    with (a * a) by field.
  now apply sqrt_square.
Qed.

(** The pointer at the centre of the screen; one panel on it but behind the
    depth bound, one at distance 0.04, one at distance 0.03 and one not yet
    mounted: the panel at 0.03 becomes active. *)
Lemma trigger_from_idle_witness :
  let panels := [Panel "/photos/2024_06_1.jpg" (Some (V3 0 0 2));
                 Panel "/photos/2024_07_1.jpg" (Some (V3 0.04 0 0));
                 Panel "/photos/2024_07_2.jpg" (Some (V3 0.03 0 0));
                 Panel "/photos/2024_09_1.jpg" None] in
  selectedPhotoUrl (Sel None 0) = None
  /\ nonempty_images panels
  /\ onClickTrigger (fun v => v) CHAOS (Some (Pointer (1 / 2) (1 / 2))) 1000
                    panels (Sel None 0)
     = Sel (Some "/photos/2024_07_2.jpg"%string) 1000.
Proof.
  intros panels.
  assert (Hidle : selectedPhotoUrl (Sel None 0) = None) by reflexivity.
  assert (Hne : nonempty_images panels).
  { repeat constructor; discriminate. }
  split; [exact Hidle | split; [exact Hne |]].
  pose proof (trigger_from_idle (fun v => v) (Pointer (1 / 2) (1 / 2)) 1000
                                panels (Sel None 0) Hidle Hne) as Hcases.
  cbv zeta beta in Hcases. cbn [pointer_x pointer_y] in Hcases.
  destruct Hcases as [Hcases _].
  assert (Hnear : (0.03 : R) = sqrt ((0.03 - (1 / 2 * 2 - 1)) * (0.03 - (1 / 2 * 2 - 1))
                                     + (0 - (- (1 / 2 * 2) + 1))
                                       * (0 - (- (1 / 2 * 2) + 1))))
    by (symmetry; apply centre_distance; lra).
  assert (Hthird : In (Panel "/photos/2024_07_2.jpg" (Some (V3 0.03 0 0))) panels)
    by (right; right; left; reflexivity).
  destruct Hcases as [(obj & w & Hin & Hw & Hz & Hd & Hmin & Hres) | [Hfar _]].
  - destruct Hin as [<- | [<- | [<- | [<- | []]]]];
      cbn [panel_ref panel_image] in *.
    + injection Hw as <-. cbn [vz] in Hz. lra.
    + injection Hw as <-.
      specialize (Hmin _ (V3 0.03 0 0) Hthird eq_refl).
      cbn [vx vy vz] in Hmin. rewrite <- Hnear in Hmin.
      rewrite (centre_distance 0.04) in Hmin by lra. lra.
    + exact Hres.
    + discriminate.
  - exfalso.
    specialize (Hfar _ (V3 0.03 0 0) Hthird eq_refl).
    cbn [vx vy vz] in Hfar. rewrite <- Hnear in Hfar. lra.
Defined.

(** X15: the effect with an active selection: within the lock it changes
    nothing, in any mode; strictly after 3000 ms, in the dispersed mode with
    a pointer, the search decides. *)
Lemma trigger_from_active (project : vec3 R -> vec3 R)
      (now : Z) (photoObjects : list PhotoPanel) (s : Selection) (cur : string) :
  selectedPhotoUrl s = Some cur -> cur <> EmptyString ->
  nonempty_images photoObjects ->
  (forall state pointer,
      (now - photoOpenTimeRef s < 3000)%Z ->
      onClickTrigger project state pointer now photoObjects s = s)
  /\ (forall pointer,
         (3000 < now - photoOpenTimeRef s)%Z ->
         onClickTrigger project CHAOS (Some pointer) now photoObjects s
         = match closestPhoto project pointer photoObjects with
           | Some id => if String.eqb cur id
                        then Sel None (photoOpenTimeRef s)
                        else Sel (Some id) now
           | None => Sel None (photoOpenTimeRef s)
           end).
Proof.
  intros Hcur Hne Himgs. split.
  - intros state pointer Hlock. unfold onClickTrigger.
    destruct state, pointer as [pointer |]; try reflexivity.
    rewrite Hcur, (truthy_Some cur Hne). cbn [andb].
    unfold LOCK_MS. destruct (Z.ltb_spec (now - photoOpenTimeRef s) 3000); [reflexivity | lia].
  - intros pointer Hfree. unfold onClickTrigger.
    rewrite Hcur, (truthy_Some cur Hne). cbn [andb]. unfold LOCK_MS.
    destruct (Z.ltb_spec (now - photoOpenTimeRef s) 3000); [lia |].
    destruct (Z.ltb_spec 3000 (now - photoOpenTimeRef s)); [| lia].
    pose proof (closestPhoto_nonempty project pointer photoObjects) as Htruthy.
    destruct (closestPhoto project pointer photoObjects) as [id |].
    + rewrite (Htruthy id Himgs eq_refl). cbn [strict_eq].
      destruct (String.eqb cur id); reflexivity.
    + cbn [truthy]. reflexivity.
Qed.

(** C5, at its boundary: exactly 3000 ms after activation the first guard
    no longer ignores the trigger (a different panel under the pointer
    becomes active), yet a trigger on the active panel, or on empty space,
    does not clear the selection: the two later checks ask for more than
    3000 ms. *)
Theorem lock_boundary_keeps_selection :
  let a := "/photos/2024_06_1.jpg"%string in
  let b := "/photos/2024_07_1.jpg"%string in
  let centre := Some (Pointer (1 / 2) (1 / 2)) in
  onClickTrigger (fun v => v) CHAOS centre 3000
                 [Panel a (Some (V3 0 0 0))] (Sel (Some a) 0)
  = Sel (Some a) 0
  /\ onClickTrigger (fun v => v) CHAOS centre 3000 [] (Sel (Some a) 0)
     = Sel (Some a) 0
  /\ onClickTrigger (fun v => v) CHAOS centre 3000
                    [Panel b (Some (V3 0 0 0))] (Sel (Some a) 0)
     = Sel (Some b) 3000
  /\ onClickTrigger (fun v => v) CHAOS centre 3001
                    [Panel a (Some (V3 0 0 0))] (Sel (Some a) 0)
     = Sel None 0.
Proof.
  intros a b centre. unfold onClickTrigger, centre.
  cbn [selectedPhotoUrl photoOpenTimeRef].
  rewrite !closestPhoto_centre.
  repeat split; reflexivity.
Qed.

(** C10: with no pointer, a trigger leaves the selection and its timestamp
    as they were, in both modes, whatever the panels and the camera. *)
Theorem trigger_without_pointer (project : vec3 R -> vec3 R) (state : AppState)
        (now : Z) (photoObjects : list PhotoPanel) (s : Selection) :
  onClickTrigger project state None now photoObjects s = s.
Proof. destruct state; reflexivity. Qed.

(** ** Layouts are generated once and only read afterwards *)

Lemma for_loop_inv {S : Type} (P : S -> Prop) (n : nat) (body : nat -> S -> S)
      (s : S) :
  P s -> (forall i acc, (i < n)%nat -> P acc -> P (body i acc)) ->
  P (for_loop n body s).
Proof.
  unfold for_loop. intros Hs Hbody.
  assert (Hseq : forall i, In i (seq 0 n) -> (i < n)%nat).
  { intros i Hi. apply in_seq in Hi. lia. }
  revert s Hs Hseq. generalize (seq 0 n) as l.
  induction l as [| i l IH]; intros s Hs Hseq; cbn [fold_left]; [exact Hs |].
  apply IH.
  - apply Hbody; [apply Hseq; now left | exact Hs].
  - intros j Hj. apply Hseq. now right.
Qed.

Lemma for_loop_push {A : Type} (f : nat -> A) (n : nat) (l0 : list A) :
  for_loop n (fun i l => l ++ [f i]) l0 = l0 ++ map f (seq 0 n).
Proof.
  unfold for_loop. generalize 0%nat as start. revert l0.
  induction n as [| n IH]; intros l0 start; cbn [seq fold_left map].
  - now rewrite app_nil_r.
  - rewrite IH, <- app_assoc. reflexivity.
Qed.

Lemma array_set_length (a : list R) (i : nat) (v : R) :
  List.length (array_set a i v) = List.length a.
Proof.
  revert i. induction a as [| x a IH]; intros [| i]; cbn; auto.
Qed.

Lemma heap_set_length (h : heap) (b : buffer) (i : nat) (v : R) (b' : buffer) :
  List.length (heap_set h b i v b') = List.length (h b').
Proof.
  unfold heap_set. destruct (buffer_eqb b b'); [apply array_set_length | reflexivity].
Qed.

(** A write to one array leaves every other array as it was. *)
Lemma heap_set_other (h : heap) (b : buffer) (i : nat) (v : R) (b' : buffer) :
  buffer_eqb b b' = false -> heap_set h b i v b' = h b'.
Proof. unfold heap_set. now intros ->. Qed.

Lemma points_of_length (n : nat) (a : list R) :
  List.length a = (n * 3)%nat -> List.length (points_of a) = n.
Proof.
  revert a. induction n as [| n IH]; intros a Hlen.
  - destruct a; [reflexivity | discriminate].
  - destruct a as [| x [| y [| z rest]]]; try discriminate.
    cbn [points_of List.length]. f_equal. apply IH.
    cbn [List.length] in Hlen. lia.
Qed.

Lemma generated_lengths (rnd sphere lSphere : nat -> R) (b : buffer) :
  List.length (generateLights lSphere (generateFoliage rnd sphere allocate) b)
  = List.length (allocate b).
Proof.
  unfold generateLights, generateFoliage.
  repeat (apply for_loop_inv with (P := fun h : heap =>
                                          List.length (h b) = List.length (allocate b));
          [| intros i acc _ Hacc; rewrite ?heap_set_length; exact Hacc]).
  reflexivity.
Qed.

Lemma allocate_length (b : buffer) :
  List.length (allocate b)
  = match b with
    | foliage_sizes => particleCount
    | lights_chaos | lights_tree => (lightCount * 3)%nat
    | _ => (particleCount * 3)%nat
    end.
Proof. destruct b; apply repeat_length. Qed.

Lemma sorted_photoFiles_length : List.length (sort_strings photoFiles) = 31%nat.
Proof. vm_compute. reflexivity. Qed.

Lemma generatePhotos_length (rnd : nat -> R) :
  List.length (generatePhotos rnd) = 31%nat.
Proof.
  unfold generatePhotos. rewrite for_loop_push. cbn [app].
  rewrite length_map, length_seq. exact sorted_photoFiles_length.
Qed.

Lemma generateOrnaments_length (rnd : nat -> R) :
  List.length (generateOrnaments rnd) = ornamentCount.
Proof.
  unfold generateOrnaments. rewrite for_loop_push. cbn [app].
  now rewrite length_map, length_seq.
Qed.

(** The foliage loop writes through [positions] only. *)
Lemma foliageLoop_other (positions : buffer) (easeV treeRotation : R) (h : heap)
      (b : buffer) :
  buffer_eqb positions b = false ->
  foliageLoop positions easeV treeRotation h b = h b.
Proof.
  intros Hother. unfold foliageLoop.
  apply for_loop_inv with (P := fun h' : heap => h' b = h b); [reflexivity |].
  intros i acc _ Hacc. now rewrite !heap_set_other.
Qed.

Lemma photoUpdate_data (easeV treeRotation : R) (obj : PhotoObject) :
  po_data (photoUpdate easeV treeRotation obj) = po_data obj.
Proof. unfold photoUpdate. destruct (po_ref obj); reflexivity. Qed.

Lemma useFrame_layouts (f : FrameInput) (s : TreeScene) (b : buffer) :
  buffer_eqb foliage_current b = false ->
  ts_heap (useFrame f s) b = ts_heap s b
  /\ map po_data (ts_photos (useFrame f s)) = map po_data (ts_photos s).
Proof.
  intros Hb. unfold useFrame. cbn [ts_heap ts_photos]. split.
  - destruct (f_points f); [now apply foliageLoop_other | reflexivity].
  - rewrite map_map. apply map_ext. intros obj. apply photoUpdate_data.
Qed.

Lemma runFrames_layouts (fs : list FrameInput) (s : TreeScene) (b : buffer) :
  buffer_eqb foliage_current b = false ->
  ts_heap (runFrames fs s) b = ts_heap s b
  /\ map po_data (ts_photos (runFrames fs s)) = map po_data (ts_photos s).
Proof.
  intros Hb. unfold runFrames. revert s.
  induction fs as [| f fs IH]; intros s; cbn [fold_left]; [now split |].
  destruct (IH (useFrame f s)) as [Hheap Hphotos].
  destruct (useFrame_layouts f s b Hb) as [Hheap1 Hphotos1].
  split; congruence.
Qed.

Lemma runOrnamentFrames_layouts (fs : list (AppState * R * R))
      (s : OrnamentScene) :
  os_ornaments (runOrnamentFrames fs s) = os_ornaments s.
Proof.
  unfold runOrnamentFrames. revert s.
  induction fs as [| [[state rotationSpeed] delta] fs IH]; intros s;
    cbn [fold_left]; [reflexivity |].
  now rewrite IH.
Qed.

Lemma initial_photo_data (rnd sphere lSphere : nat -> R) (mounted : nat -> bool) :
  map po_data (ts_photos (initialScene rnd sphere lSphere mounted))
  = generatePhotos rnd.
Proof.
  unfold initialScene. cbn [ts_photos].
  generalize (generatePhotos rnd) as photos. intros photos.
  generalize 0%nat as start.
  induction photos as [| p photos IH]; intros start; [reflexivity |].
  cbn [List.length seq combine map po_data]. now rewrite IH.
Qed.

(** C9: for each of the four populations the chaos layout and the tree
    layout have as many points as the population counts (4500 foliage
    particles, 300 lights, 31 photos, 40 ornaments), and after any sequence
    of ticks, whatever their inputs, the layouts are what generation made
    them: the foliage loop writes the positions array only, the lights loop
    the instance list, the photo and ornament loops the transforms. *)
Theorem layouts_fixed_after_generation
        (rnd sphere lSphere : nat -> R) (mounted : nat -> bool)
        (rndO : nat -> R)
        (fs : list FrameInput) (ofs : list (AppState * R * R)) :
  let s0 := initialScene rnd sphere lSphere mounted in
  let s := runFrames fs s0 in
  let o0 := initialOrnaments rndO in
  let o := runOrnamentFrames ofs o0 in
  (List.length (points_of (ts_heap s0 foliage_chaos)) = particleCount
   /\ List.length (points_of (ts_heap s0 foliage_tree)) = particleCount)
  /\ (List.length (points_of (ts_heap s0 lights_chaos)) = lightCount
      /\ List.length (points_of (ts_heap s0 lights_tree)) = lightCount)
  /\ (List.length (map chaosPos (map po_data (ts_photos s0))) = 31%nat
      /\ List.length (map treePos (map po_data (ts_photos s0))) = 31%nat
      /\ List.length (sort_strings photoFiles) = 31%nat)
  /\ (List.length (map o_chaosPos (os_ornaments o0)) = ornamentCount
      /\ List.length (map o_treeCyl (os_ornaments o0)) = ornamentCount)
  /\ (ts_heap s foliage_chaos = ts_heap s0 foliage_chaos
      /\ ts_heap s foliage_tree = ts_heap s0 foliage_tree
      /\ ts_heap s lights_chaos = ts_heap s0 lights_chaos
      /\ ts_heap s lights_tree = ts_heap s0 lights_tree
      /\ map po_data (ts_photos s) = map po_data (ts_photos s0)
      /\ os_ornaments o = os_ornaments o0).
Proof.
  intros s0 s o0 o.
  assert (Hlen : forall b, List.length (ts_heap s0 b) = List.length (allocate b)).
  { intros b. apply generated_lengths. }
  assert (Hpoints : forall b n, List.length (allocate b) = (n * 3)%nat ->
                                List.length (points_of (ts_heap s0 b)) = n).
  { intros b n Hb. apply points_of_length. now rewrite Hlen. }
  assert (Hphotos : map po_data (ts_photos s0) = generatePhotos rnd)
    by apply initial_photo_data.
  split; [| split; [| split; [| split]]].
  - split; apply Hpoints; apply allocate_length.
  - split; apply Hpoints; apply allocate_length.
  - rewrite Hphotos, !length_map, generatePhotos_length.
    split; [reflexivity | split; [reflexivity |]].
    exact sorted_photoFiles_length.
  - rewrite !length_map. split; apply generateOrnaments_length.
  - pose proof (runFrames_layouts fs s0 foliage_chaos eq_refl) as [Hfc Hdata].
    pose proof (runFrames_layouts fs s0 foliage_tree eq_refl) as [Hft _].
    pose proof (runFrames_layouts fs s0 lights_chaos eq_refl) as [Hlc _].
    pose proof (runFrames_layouts fs s0 lights_tree eq_refl) as [Hlt _].
    split; [exact Hfc |]. split; [exact Hft |]. split; [exact Hlc |].
    split; [exact Hlt |]. split; [exact Hdata |].
    apply runOrnamentFrames_layouts.
Qed.

(** The positions array does change: one tick in the formed mode moves the
    first foliage particle of a two-array store off its chaos point. *)
Example foliageLoop_writes_positions :
  let h : heap := fun b =>
                    match b with
                    | foliage_chaos => [1; 0; 0]
                    | foliage_tree => [0; 5; 0]
                    | _ => [0; 0; 0]
                    end in
  foliageLoop foliage_current 1 0 h foliage_current = [0; 5; 0]
  /\ foliageLoop foliage_current 1 0 h foliage_chaos = [1; 0; 0].
Proof.
  intros h. split; [| now apply foliageLoop_other].
  unfold foliageLoop, for_loop.
  cbn [h List.length Nat.add Nat.div Nat.divmod fst seq fold_left Nat.mul].
  unfold heap_point, heap_get, array_get, heap_set.
  cbn [buffer_eqb h nth Nat.add array_set].
  unfold foliageBlend.
  destruct (polarBlend_endpoints foliageVortex foliageCoRotation
                                 (V3 1 0 0) (V3 0 5 0) 0) as [-> _].
  unfold ofCyl, radius, azimuth; unfold_num. cbn [vx vy vz].
  replace (0 * 0 + 0 * 0) with 0 by ring. rewrite sqrt_0.
  repeat f_equal; ring.
Qed.

(** ** The ticks use the clock and the ease curve of the engine *)

Lemma useFrame_progress (f : FrameInput) (s : TreeScene) :
  ts_progress (useFrame f s)
  = advance (match f_state f with FORMED => 1 | CHAOS => 0 end)
            (f_delta f) (ts_progress s).
Proof. reflexivity. Qed.

Lemma ornamentsFrame_progress (state : AppState) (rotationSpeed delta : R)
      (s : OrnamentScene) :
  os_progress (ornamentsFrame state rotationSpeed delta s)
  = advance (match state with FORMED => 1 | CHAOS => 0 end)
            delta (os_progress s).
Proof. reflexivity. Qed.

Lemma useFrame_photo (f : FrameInput) (s : TreeScene) (d : ParticleData)
      (pos rot : vec3 R) :
  In (PhotoObj d (Some (pos, rot))) (ts_photos (useFrame f s)) ->
  pos = photosBlend (chaosPos d) (treePos d)
                    (ease (ts_progress (useFrame f s)))
                    (ts_treeRotation (useFrame f s)).
Proof.
  unfold useFrame. cbn [ts_photos ts_progress ts_treeRotation].
  intros Hin. apply in_map_iff in Hin as (obj & Hobj & _).
  unfold photoUpdate in Hobj. destruct (po_ref obj) as [old |] eqn:Href.
  - injection Hobj as Hd Hpos _. subst d. now rewrite <- Hpos.
  - subst obj. cbn [po_ref] in Href. discriminate.
Qed.

(** ** More on the clock and the blend *)

Lemma damp_R (x y lambda dt : R) :
  damp x y lambda dt = exp (- lambda * dt) * x + (1 - exp (- lambda * dt)) * y.
Proof. unfold damp, lerp; unfold_num. ring. Qed.

Lemma damp_zero_delta (x y lambda : R) : damp x y lambda 0 = x.
Proof. rewrite damp_R, Rmult_0_r, exp_0. ring. Qed.

(** With a non-negative rate and step, [damp] lands between where it was
    and its target. *)
Lemma damp_between (x y lambda dt lo hi : R) :
  0 <= lambda -> 0 <= dt -> lo <= x <= hi -> lo <= y <= hi ->
  lo <= damp x y lambda dt <= hi.
Proof.
  intros Hl Hdt Hx Hy. rewrite damp_R.
  assert (Hk : 0 < exp (- lambda * dt) <= 1).
  { split; [apply exp_pos |].
    assert (Hle : - lambda * dt <= 0) by nra.
    destruct Hle as [Hlt | Heq].
    - left. rewrite <- exp_0. now apply exp_increasing.
    - rewrite Heq, exp_0. lra. }
  set (k := exp (- lambda * dt)) in *. nra.
Qed.

Lemma ease_unit (p : R) : 0 <= p <= 1 -> 0 <= ease p <= 1.
Proof.
  intros Hp. unfold ease; unfold_num.
  assert (H1 : 1 - p * p * (3 - 2 * p) = (1 - p) * (1 - p) * (1 + 2 * p)) by ring.
  assert (0 <= (1 - p) * (1 - p) * (1 + 2 * p))
    by (apply Rmult_le_pos; [apply Rmult_le_pos |]; lra).
  assert (0 <= p * p * (3 - 2 * p))
    by (apply Rmult_le_pos; [apply Rmult_le_pos |]; lra).
  lra.
Qed.

(** X1: a tick with [delta = 0] leaves the clock where it was: progress,
    rotation angle and pan of [TreeSystem], progress and rotation angle of
    [CrystalOrnaments]. *)
Theorem zero_delta_tick (f : FrameInput) (s : TreeScene)
        (state : AppState) (rotationSpeed : R) (o : OrnamentScene) :
  f_delta f = 0 ->
  (ts_progress (useFrame f s) = ts_progress s
   /\ ts_treeRotation (useFrame f s) = ts_treeRotation s
   /\ ts_pan (useFrame f s) = ts_pan s)
  /\ (os_progress (ornamentsFrame state rotationSpeed 0 o) = os_progress o
      /\ os_treeRotation (ornamentsFrame state rotationSpeed 0 o)
         = os_treeRotation o).
Proof.
  intros Hd. unfold useFrame, ornamentsFrame.
  cbn [ts_progress ts_treeRotation ts_pan os_progress os_treeRotation].
  rewrite Hd, !damp_zero_delta.
  repeat split; try ring.
  destruct (ts_pan s); reflexivity.
Qed.

Lemma zero_delta_tick_witness :
  f_delta (Frame FORMED 0.3 0 (1, 1) 0 5 true true) = 0
  /\ ts_progress (useFrame (Frame FORMED 0.3 0 (1, 1) 0 5 true true)
                           (Scene allocate [] [] 0.5 2 (0, 0))) = 0.5.
Proof.
  split; [reflexivity |].
  destruct (zero_delta_tick (Frame FORMED 0.3 0 (1, 1) 0 5 true true)
                            (Scene allocate [] [] 0.5 2 (0, 0))
                            CHAOS 0 (OScene [] [] 0 0) eq_refl)
    as [[Hp _] _].
  exact Hp.
Defined.

Lemma useFrame_progress_unit (f : FrameInput) (s : TreeScene) :
  0 <= f_delta f -> 0 <= ts_progress s <= 1 ->
  0 <= ts_progress (useFrame f s) <= 1.
Proof.
  intros Hd Hp. unfold useFrame. cbn [ts_progress].
  apply damp_between; try lra. destruct (f_state f); lra.
Qed.

(** X2: with non-negative time steps, progress stays in [[0,1]] through
    any sequence of ticks, in any order of modes, and so does the eased
    value the blends use. *)
Theorem progress_stays_in_unit_interval (fs : list FrameInput) (s : TreeScene) :
  Forall (fun f => 0 <= f_delta f) fs ->
  0 <= ts_progress s <= 1 ->
  0 <= ts_progress (runFrames fs s) <= 1
  /\ 0 <= ease (ts_progress (runFrames fs s)) <= 1.
Proof.
  intros Hfs Hp.
  assert (Hrun : 0 <= ts_progress (runFrames fs s) <= 1).
  { unfold runFrames. revert s Hp.
    induction Hfs as [| f fs Hf _ IH]; intros s Hp; cbn [fold_left]; [exact Hp |].
    apply IH. now apply useFrame_progress_unit. }
  split; [exact Hrun | now apply ease_unit].
Qed.

Lemma progress_stays_in_unit_interval_witness :
  Forall (fun f => 0 <= f_delta f) [Frame CHAOS 0.3 0 (0, 0) 0 0 false false]
  /\ 0 <= ts_progress (Scene allocate [] [] 1 0 (0, 0)) <= 1
  /\ 0 <= ts_progress (runFrames [Frame CHAOS 0.3 0 (0, 0) 0 0 false false]
                                 (Scene allocate [] [] 1 0 (0, 0))) <= 1.
Proof.
  assert (Hfs : Forall (fun f => 0 <= f_delta f)
                       [Frame CHAOS 0.3 0 (0, 0) 0 0 false false]).
  { constructor; [cbn; lra | constructor]. }
  assert (Hp : 0 <= ts_progress (Scene allocate [] [] 1 0 (0, 0)) <= 1)
    by (cbn; lra).
  split; [exact Hfs | split; [exact Hp |]].
  exact (proj1 (progress_stays_in_unit_interval _ _ Hfs Hp)).
Defined.

Lemma sqrt_sum_sqr_le (x z m : R) :
  0 <= m -> x * x + z * z <= m * m -> sqrt (x * x + z * z) <= m.
Proof.
  intros Hm Hle. rewrite <- (sqrt_square m Hm). now apply sqrt_le_1_alt.
Qed.

(** The length of a blend of two planar vectors given by length and
    angle. *)
Lemma planar_mix_le (a b alpha beta : R) :
  0 <= a -> 0 <= b ->
  sqrt ((a * cos alpha + b * cos beta) * (a * cos alpha + b * cos beta)
        + (a * sin alpha + b * sin beta) * (a * sin alpha + b * sin beta))
  <= a + b.
Proof.
  intros Ha Hb. apply sqrt_sum_sqr_le; [lra |].
  pose proof (sin2_cos2 alpha) as Hal. pose proof (sin2_cos2 beta) as Hbe.
  unfold Rsqr in Hal, Hbe.
  pose proof (COS_bound (alpha - beta)) as [_ Hc]. rewrite cos_minus in Hc.
  assert (Hexp :
            (a * cos alpha + b * cos beta) * (a * cos alpha + b * cos beta)
            + (a * sin alpha + b * sin beta) * (a * sin alpha + b * sin beta)
            = a * a * (sin alpha * sin alpha + cos alpha * cos alpha)
              + b * b * (sin beta * sin beta + cos beta * cos beta)
              + 2 * (a * b) * (cos alpha * cos beta + sin alpha * sin beta))
    by ring.
  rewrite Hexp, Hal, Hbe.
  assert (0 <= a * b) by now apply Rmult_le_pos.
  nra.
Qed.

(** X4: for an ease in [[0,1]] the blended point is no higher and no lower
    than its two end points, and no farther from the vertical axis than the
    farther of the two. *)
Theorem polarBlend_stays_inside (vortexStrength coRotation : R)
        (c t : vec3 R) (e treeRotation : R) :
  0 <= e <= 1 ->
  let p := polarBlend vortexStrength coRotation c t e treeRotation in
  Rmin (vy c) (vy t) <= vy p <= Rmax (vy c) (vy t)
  /\ horizontal p <= Rmax (horizontal c) (horizontal t).
Proof.
  intros He p. subst p. destruct c as [cx cy cz], t as [tx ty tz].
  unfold horizontal. unfold_blend.
  set (cr := sqrt (cx * cx + cz * cz)).
  set (tr := sqrt (tx * tx + tz * tz)).
  assert (Hcr : 0 <= cr) by apply sqrt_pos.
  assert (Htr : 0 <= tr) by apply sqrt_pos.
  split.
  - pose proof (Rmin_l cy ty). pose proof (Rmin_r cy ty).
    pose proof (Rmax_l cy ty). pose proof (Rmax_r cy ty).
    split; nra.
  - set (alpha := atan2 cz cx + treeRotation * coRotation).
    set (beta := atan2 tz tx + (1 - e) * vortexStrength + treeRotation).
    set (r := (1 - e) * cr + e * tr).
    assert (Hr : 0 <= r) by (unfold r; nra).
    pose proof (planar_mix_le ((1 - e) * cr) (e * r) alpha beta) as Hmix.
    assert (Ha : 0 <= (1 - e) * cr) by nra.
    assert (Hb : 0 <= e * r) by nra.
    specialize (Hmix Ha Hb).
    replace ((1 - e) * (cr * cos alpha) + e * (r * cos beta))
      with ((1 - e) * cr * cos alpha + e * r * cos beta) by ring.
    replace ((1 - e) * (cr * sin alpha) + e * (r * sin beta))
      with ((1 - e) * cr * sin alpha + e * r * sin beta) by ring.
    pose proof (Rmax_l cr tr). pose proof (Rmax_r cr tr).
    assert (Hrm : r <= Rmax cr tr) by (unfold r; nra).
    assert ((1 - e) * cr + e * r <= Rmax cr tr) by nra.
    lra.
Qed.

Lemma polarBlend_stays_inside_witness :
  0 <= 1 / 2 <= 1
  /\ horizontal (polarBlend 15.0 0.5 (V3 3 0 4) (V3 1 2 0) (1 / 2) 7)
     <= Rmax (horizontal (V3 3 0 4)) (horizontal (V3 1 2 0)).
Proof.
  assert (He : 0 <= 1 / 2 <= 1) by lra.
  split; [exact He |].
  exact (proj2 (polarBlend_stays_inside 15.0 0.5 (V3 3 0 4) (V3 1 2 0)
                                        (1 / 2) 7 He)).
Defined.

(** The ornament loop is the shared blend applied to the cylinder reading
    of a tree point, over any numbers. *)
Lemma ornamentsBlend_is_polarBlend {T : Type} `{Num T}
      (c t : vec3 T) (e treeRotation : T) :
  ornamentsBlend c (Cyl (vy t) (radius t) (azimuth t)) e treeRotation
  = polarBlend ornamentsVortex ornamentsCoRotation c t e treeRotation.
Proof. reflexivity. Qed.

(** X5: the ornament loop at its two ends.  At [ease = 1] an ornament sits
    at its stored cylinder target [(h, r, angle)] turned by the rotation
    angle, whatever its chaos point; at [ease = 0] it sits at its chaos
    point turned by 0.15 times the rotation angle, whatever its target. *)
Theorem ornamentsBlend_endpoints (chaosPos : vec3 R) (treeCyl : cyl R)
        (treeRotation : R) :
  ornamentsBlend chaosPos treeCyl 1 treeRotation
  = ofCyl (cyl_r treeCyl) (cyl_angle treeCyl + treeRotation) (cyl_h treeCyl)
  /\ ornamentsBlend chaosPos treeCyl 0 treeRotation
     = ofCyl (radius chaosPos) (azimuth chaosPos + treeRotation * 0.15)
             (vy chaosPos).
Proof.
  destruct chaosPos as [cx cy cz], treeCyl as [h r angle].
  split; unfold_blend; f_equal; try ring.
  - replace (angle + (1 - 1) * 12.0 + treeRotation)
      with (angle + treeRotation) by ring.
    ring.
  - replace (angle + (1 - 1) * 12.0 + treeRotation)
      with (angle + treeRotation) by ring.
    ring.
Qed.

(** X6: the rotation angle after a sequence of ticks is the starting angle
    plus the sum of [speed * delta] over the ticks (0.08 per second in the
    dispersed mode, [rotationSpeed + rotationBoost] in the formed mode); it
    is never reset. *)
Theorem rotation_accumulates (fs : list FrameInput) (s : TreeScene) :
  ts_treeRotation (runFrames fs s)
  = ts_treeRotation s + fold_right Rplus 0 (map frameSpin fs).
Proof.
  unfold runFrames. revert s.
  induction fs as [| f fs IH]; intros s; cbn [fold_left map fold_right].
  - ring.
  - rewrite IH. unfold useFrame at 1, frameSpin at 2. cbn [ts_treeRotation]. ring.
Qed.

(** ** More on the selection effect *)

(** An active selection, triggered 1000 ms and 5000 ms after its
    activation with another panel under the pointer. *)
Lemma trigger_from_active_witness :
  selectedPhotoUrl (Sel (Some "/photos/2024_06_1.jpg"%string) 0)
  = Some "/photos/2024_06_1.jpg"%string
  /\ "/photos/2024_06_1.jpg"%string <> EmptyString
  /\ nonempty_images [Panel "/photos/2024_07_1.jpg" (Some (V3 0 0 0))]
  /\ onClickTrigger (fun v => v) CHAOS (Some (Pointer (1 / 2) (1 / 2))) 1000
                    [Panel "/photos/2024_07_1.jpg" (Some (V3 0 0 0))]
                    (Sel (Some "/photos/2024_06_1.jpg"%string) 0)
     = Sel (Some "/photos/2024_06_1.jpg"%string) 0
  /\ onClickTrigger (fun v => v) CHAOS (Some (Pointer (1 / 2) (1 / 2))) 5000
                    [Panel "/photos/2024_07_1.jpg" (Some (V3 0 0 0))]
                    (Sel (Some "/photos/2024_06_1.jpg"%string) 0)
     = Sel (Some "/photos/2024_07_1.jpg"%string) 5000.
Proof.
  assert (Hcur : selectedPhotoUrl (Sel (Some "/photos/2024_06_1.jpg"%string) 0)
                 = Some "/photos/2024_06_1.jpg"%string) by reflexivity.
  assert (Hne : "/photos/2024_06_1.jpg"%string <> EmptyString) by discriminate.
  assert (Himgs : nonempty_images [Panel "/photos/2024_07_1.jpg" (Some (V3 0 0 0))]).
  { constructor; [discriminate | constructor]. }
  split; [exact Hcur | split; [exact Hne | split; [exact Himgs |]]].
  split.
  - destruct (trigger_from_active (fun v => v) 1000 _ _ _ Hcur Hne Himgs)
      as [Hlock _].
    apply Hlock. cbn. lia.
  - destruct (trigger_from_active (fun v => v) 5000 _ _ _ Hcur Hne Himgs)
      as [_ Hfree].
    rewrite Hfree by (cbn; lia).
    rewrite closestPhoto_centre. reflexivity.
Defined.

(** X16: whatever the inputs, a trigger does one of three things: it
    leaves the selection and its timestamp alone; it clears an active
    selection and keeps the timestamp; or it activates the panel the search
    found, which differs from the one that was active, and stamps it with
    the trigger time.  The timestamp moves in the last case only. *)
Theorem trigger_outcomes (project : vec3 R -> vec3 R) (state : AppState)
        (pointer : option PointerCoords) (now : Z)
        (photoObjects : list PhotoPanel) (s : Selection) :
  let s' := onClickTrigger project state pointer now photoObjects s in
  s' = s
  \/ (truthy (selectedPhotoUrl s) = true /\ s' = Sel None (photoOpenTimeRef s))
  \/ (exists p id,
         state = CHAOS /\ pointer = Some p
         /\ closestPhoto project p photoObjects = Some id
         /\ selectedPhotoUrl s <> Some id
         /\ s' = Sel (Some id) now).
Proof.
  intros s'. subst s'. unfold onClickTrigger.
  destruct state; [| now left].
  destruct pointer as [p |]; [| now left].
  destruct (truthy (selectedPhotoUrl s) && _)%bool; [now left |].
  destruct (closestPhoto project p photoObjects) as [id |] eqn:Hclosest.
  - destruct (truthy (Some id)) eqn:Hid.
    + destruct (strict_eq (selectedPhotoUrl s) (Some id)) eqn:Heq.
      * destruct (LOCK_MS <? now - photoOpenTimeRef s)%Z; [| now left].
        right. left. split; [| reflexivity].
        destruct (selectedPhotoUrl s) as [cur |]; [| discriminate].
        cbn [strict_eq] in Heq. apply String.eqb_eq in Heq. now subst cur.
      * right. right. exists p, id.
        split; [reflexivity | split; [reflexivity | split; [exact Hclosest |]]].
        split; [| reflexivity].
        intros Hsame. rewrite Hsame in Heq. cbn [strict_eq] in Heq.
        now rewrite String.eqb_refl in Heq.
    + destruct (truthy (selectedPhotoUrl s)) eqn:Hsel; [| now left].
      destruct (LOCK_MS <? now - photoOpenTimeRef s)%Z; [| now left].
      right. left. now split.
  - cbn [truthy].
    destruct (truthy (selectedPhotoUrl s)) eqn:Hsel; [| now left].
    destruct (LOCK_MS <? now - photoOpenTimeRef s)%Z; [| now left].
    right. left. now split.
Qed.

Section FirstWins.
Variable project : vec3 R -> vec3 R.
Variable pointer : PointerCoords.

Lemma first_nearest_step (seen : list PhotoPanel) acc (obj : PhotoPanel) :
  first_nearest project pointer seen acc ->
  first_nearest project pointer (seen ++ [obj]) (scanPanel project pointer acc obj).
Proof.
  intros Hacc. unfold scanPanel.
  destruct (screenDistance project pointer obj) as [dist |] eqn:Hd.
  - destruct (Rltb dist SELECTION_THRESHOLD && below dist (snd acc))%bool eqn:Hupd.
    + apply andb_prop in Hupd as [Hthr Hbelow]. apply Rltb_true in Hthr.
      cbn [first_nearest]. split; [exact Hthr |].
      exists seen, obj, []. split; [reflexivity |].
      split; [reflexivity | split; [exact Hd | split]].
      * intros o d Hin Ho.
        destruct acc as [[id |] [m |]]; cbn [first_nearest snd below] in *;
          try contradiction.
        -- apply Rltb_true in Hbelow.
           destruct Hacc as (Hm & l1 & o0 & l2 & -> & _ & Hd0 & Hbefore & Hafter).
           apply in_app_iff in Hin as [Hin | [<- | Hin]].
           ++ specialize (Hbefore o d Hin Ho). lra.
           ++ rewrite Hd0 in Ho. injection Ho as <-. lra.
           ++ specialize (Hafter o d Hin Ho). lra.
        -- specialize (Hacc o d Hin Ho). lra.
      * intros o d [].
    + destruct acc as [[id |] [m |]]; cbn [first_nearest snd below] in *;
        try contradiction.
      * destruct Hacc as (Hm & l1 & o0 & l2 & -> & Hid & Hd0 & Hbefore & Hafter).
        split; [exact Hm |].
        exists l1, o0, (l2 ++ [obj]). split; [now rewrite <- app_assoc |].
        split; [exact Hid | split; [exact Hd0 | split; [exact Hbefore |]]].
        intros o d Hin Ho. apply in_app_iff in Hin as [Hin | [<- | []]].
        -- exact (Hafter o d Hin Ho).
        -- rewrite Hd in Ho. injection Ho as <-.
           apply andb_false_iff in Hupd as [Hfar | Hnot].
           ++ apply Rltb_false in Hfar. lra.
           ++ now apply Rltb_false in Hnot.
      * intros o d Hin Ho. apply in_app_iff in Hin as [Hin | [<- | []]].
        -- exact (Hacc o d Hin Ho).
        -- rewrite Hd in Ho. injection Ho as <-.
           rewrite andb_true_r in Hupd. now apply Rltb_false in Hupd.
  - destruct acc as [[id |] [m |]]; cbn [first_nearest] in *; try contradiction.
    + destruct Hacc as (Hm & l1 & o0 & l2 & -> & Hid & Hd0 & Hbefore & Hafter).
      split; [exact Hm |].
      exists l1, o0, (l2 ++ [obj]). split; [now rewrite <- app_assoc |].
      split; [exact Hid | split; [exact Hd0 | split; [exact Hbefore |]]].
      intros o d Hin Ho. apply in_app_iff in Hin as [Hin | [<- | []]].
      * exact (Hafter o d Hin Ho).
      * congruence.
    + intros o d Hin Ho. apply in_app_iff in Hin as [Hin | [<- | []]].
      * exact (Hacc o d Hin Ho).
      * congruence.
Qed.

Lemma first_nearest_fold (rest seen : list PhotoPanel) acc :
  first_nearest project pointer seen acc ->
  first_nearest project pointer (seen ++ rest)
                (fold_left (scanPanel project pointer) rest acc).
Proof.
  revert seen acc. induction rest as [| obj rest IH]; intros seen acc Hacc.
  - now rewrite app_nil_r.
  - cbn [fold_left].
    replace (seen ++ obj :: rest) with ((seen ++ [obj]) ++ rest)
      by (rewrite <- app_assoc; reflexivity).
    apply IH, first_nearest_step, Hacc.
Qed.
End FirstWins.

(** X17: among panels at the same smallest distance the search returns the
    first in list order: the found panel splits the list so that every
    scanned panel before it is strictly farther from the pointer and every
    one after it is at least as far. *)
Theorem closestPhoto_first_nearest (project : vec3 R -> vec3 R)
        (pointer : PointerCoords) (photoObjects : list PhotoPanel) (id : string) :
  closestPhoto project pointer photoObjects = Some id ->
  exists before obj after d,
    photoObjects = before ++ obj :: after
    /\ panel_image obj = id
    /\ screenDistance project pointer obj = Some d
    /\ d < SELECTION_THRESHOLD
    /\ (forall o d', In o before ->
                     screenDistance project pointer o = Some d' -> d < d')
    /\ (forall o d', In o after ->
                     screenDistance project pointer o = Some d' -> d <= d').
Proof.
  unfold closestPhoto. intros Hfound.
  pose proof (first_nearest_fold project pointer photoObjects [] (None, None)) as Hinv.
  cbn [app] in Hinv.
  destruct (fold_left _ photoObjects (None, None)) as [[id' |] [m |]];
    cbn [fst first_nearest] in *; try discriminate.
  - injection Hfound as ->.
    destruct Hinv as (Hm & l1 & o & l2 & Hsplit & Hid & Hd & Hbefore & Hafter);
      [intros ? ? [] |].
    exists l1, o, l2, m. auto 10.
  - exfalso. apply Hinv. intros ? ? [].
Qed.

Lemma closestPhoto_first_nearest_witness :
  closestPhoto (fun v => v) (Pointer (1 / 2) (1 / 2))
               [Panel "/photos/2024_06_1.jpg" (Some (V3 0 0 0));
                Panel "/photos/2024_07_1.jpg" (Some (V3 0 0 0))]
  = Some "/photos/2024_06_1.jpg"%string
  /\ exists before obj after d,
      [Panel "/photos/2024_06_1.jpg" (Some (V3 0 0 0));
       Panel "/photos/2024_07_1.jpg" (Some (V3 0 0 0))]
      = before ++ obj :: after
      /\ panel_image obj = "/photos/2024_06_1.jpg"%string
      /\ screenDistance (fun v => v) (Pointer (1 / 2) (1 / 2)) obj = Some d.
Proof.
  assert (Hfound :
            closestPhoto (fun v => v) (Pointer (1 / 2) (1 / 2))
                         [Panel "/photos/2024_06_1.jpg" (Some (V3 0 0 0));
                          Panel "/photos/2024_07_1.jpg" (Some (V3 0 0 0))]
            = Some "/photos/2024_06_1.jpg"%string).
  { unfold closestPhoto. cbn [fold_left]. unfold scanPanel.
    rewrite !screenDistance_centre. cbn [panel_image snd below].
    assert (Hthr : Rltb 0 SELECTION_THRESHOLD = true)
      by (apply Rltb_true; unfold SELECTION_THRESHOLD; lra).
    rewrite Hthr. cbn [andb snd below].
    assert (Hnot : Rltb 0 0 = false) by (apply Rltb_false; lra).
    rewrite Hnot. reflexivity. }
  split; [exact Hfound |].
  destruct (closestPhoto_first_nearest _ _ _ _ Hfound)
    as (before & obj & after & d & Hsplit & Hid & Hd & _).
  exists before, obj, after, d. auto.
Defined.

(** ** What the loops write *)

Lemma for_loop_from {S : Type} (P : nat -> S -> Prop) (body : nat -> S -> S)
      (len start : nat) (s : S) :
  P start s ->
  (forall i acc, (start <= i < start + len)%nat -> P i acc ->
                 P (Datatypes.S i) (body i acc)) ->
  P (start + len)%nat (fold_left (fun acc i => body i acc) (seq start len) s).
Proof.
  revert start s. induction len as [| len IH]; intros start s Hs Hbody.
  - cbn [seq fold_left]. now rewrite Nat.add_0_r.
  - cbn [seq fold_left].
    replace (start + Datatypes.S len)%nat with (Datatypes.S start + len)%nat by lia.
    apply IH.
    + apply Hbody; [lia | exact Hs].
    + intros i acc Hi. apply Hbody. lia.
Qed.

(** A loop invariant that knows how many passes are done. *)
Lemma for_loop_indexed {S : Type} (P : nat -> S -> Prop) (n : nat)
      (body : nat -> S -> S) (s : S) :
  P 0%nat s ->
  (forall i acc, (i < n)%nat -> P i acc -> P (Datatypes.S i) (body i acc)) ->
  P n (for_loop n body s).
Proof.
  intros Hs Hbody. unfold for_loop.
  apply (for_loop_from P body n 0 s Hs).
  intros i acc Hi. apply Hbody. lia.
Qed.

Lemma array_get_set_same (a : list R) (i : nat) (v : R) :
  (i < List.length a)%nat -> array_get (array_set a i v) i = v.
Proof.
  unfold array_get. revert i.
  induction a as [| x a IH]; intros [| i] Hi; cbn in *; try lia; auto.
  apply IH. lia.
Qed.

Lemma array_get_set_diff (a : list R) (i j : nat) (v : R) :
  i <> j -> array_get (array_set a i v) j = array_get a j.
Proof.
  unfold array_get. revert i j.
  induction a as [| x a IH]; intros [| i] [| j] Hij; cbn; auto; try lia.
Qed.

Lemma buffer_eqb_refl (b : buffer) : buffer_eqb b b = true.
Proof. now destruct b. Qed.

Lemma heap_get_set_same (h : heap) (b : buffer) (i : nat) (v : R) :
  (i < List.length (h b))%nat -> heap_get (heap_set h b i v) b i = v.
Proof.
  intros Hi. unfold heap_get, heap_set. rewrite buffer_eqb_refl.
  now apply array_get_set_same.
Qed.

Lemma heap_get_set_diff (h : heap) (b : buffer) (i j : nat) (v : R) :
  i <> j -> heap_get (heap_set h b i v) b j = heap_get h b j.
Proof.
  intros Hij. unfold heap_get, heap_set. rewrite buffer_eqb_refl.
  now apply array_get_set_diff.
Qed.

Lemma heap_get_set_other (h : heap) (b b' : buffer) (i j : nat) (v : R) :
  buffer_eqb b b' = false -> heap_get (heap_set h b i v) b' j = heap_get h b' j.
Proof. intros Hb. unfold heap_get. now rewrite heap_set_other. Qed.

Lemma heap_point_ext (h h' : heap) (b : buffer) (i : nat) :
  h b = h' b -> heap_point h b i = heap_point h' b i.
Proof. intros Hb. unfold heap_point, heap_get. now rewrite Hb. Qed.

(** Three consecutive cells written through one array. *)
Lemma heap_point_written (h : heap) (b : buffer) (i3 : nat) (x y z : R) :
  (i3 + 2 < List.length (h b))%nat ->
  heap_point (heap_set (heap_set (heap_set h b i3 x) b (i3 + 1) y) b (i3 + 2) z)
             b i3
  = V3 x y z.
Proof.
  intros Hlen. unfold heap_point.
  rewrite heap_get_set_same by (rewrite !heap_set_length; lia).
  rewrite (heap_get_set_diff _ b (i3 + 2) (i3 + 1)) by lia.
  rewrite heap_get_set_same by (rewrite !heap_set_length; lia).
  rewrite (heap_get_set_diff _ b (i3 + 2) i3) by lia.
  rewrite (heap_get_set_diff _ b (i3 + 1) i3) by lia.
  rewrite heap_get_set_same by lia.
  reflexivity.
Qed.

Lemma heap_point_kept (h : heap) (b : buffer) (i3 j3 : nat) (x y z : R) :
  (j3 + 2 < i3)%nat ->
  heap_point (heap_set (heap_set (heap_set h b i3 x) b (i3 + 1) y) b (i3 + 2) z)
             b j3
  = heap_point h b j3.
Proof.
  intros Hlt. unfold heap_point.
  rewrite !heap_get_set_diff by lia. reflexivity.
Qed.

Lemma vec3_eta {T : Type} (p : vec3 T) : V3 (vx p) (vy p) (vz p) = p.
Proof. now destruct p. Qed.

Lemma third_of_triple (n : nat) : ((n * 3 + 2) / 3 = n)%nat.
Proof.
  rewrite Nat.div_add_l by lia. rewrite (Nat.div_small 2 3) by lia. lia.
Qed.

(** X7: after the foliage loop every particle's cell of the positions
    array holds the blend of that particle's own chaos and tree points, at
    the tick's ease and rotation angle. *)
Theorem foliageLoop_blends_each_particle (easeV treeRotation : R) (h : heap)
        (n i : nat) :
  List.length (h foliage_current) = (n * 3)%nat -> (i < n)%nat ->
  heap_point (foliageLoop foliage_current easeV treeRotation h)
             foliage_current (i * 3)
  = foliageBlend (heap_point h foliage_chaos (i * 3))
                 (heap_point h foliage_tree (i * 3))
                 easeV treeRotation.
Proof.
  intros Hlen Hi. unfold foliageLoop. rewrite Hlen, third_of_triple.
  set (body := fun (i : nat) (h : heap) => _).
  set (P := fun (k : nat) (h' : heap) =>
              List.length (h' foliage_current) = (n * 3)%nat
              /\ h' foliage_chaos = h foliage_chaos
              /\ h' foliage_tree = h foliage_tree
              /\ forall j, (j < k)%nat ->
                   heap_point h' foliage_current (j * 3)
                   = foliageBlend (heap_point h foliage_chaos (j * 3))
                                  (heap_point h foliage_tree (j * 3))
                                  easeV treeRotation).
  assert (Hinv : P n (for_loop n body h)).
  { apply (for_loop_indexed P); unfold P.
    - split; [exact Hlen | split; [reflexivity | split; [reflexivity |]]].
      intros j Hj. lia.
    - intros k acc Hk (Hl & Hc & Ht & Hdone). subst body. cbv beta.
      split; [| split; [| split]].
      + now rewrite !heap_set_length.
      + now rewrite !heap_set_other.
      + now rewrite !heap_set_other.
      + intros j Hj.
        rewrite (heap_point_ext acc h foliage_chaos (k * 3) Hc).
        rewrite (heap_point_ext acc h foliage_tree (k * 3) Ht).
        destruct (Nat.eq_dec j k) as [-> | Hne].
        * rewrite heap_point_written by lia. apply vec3_eta.
        * rewrite heap_point_kept by lia. apply Hdone. lia. }
  destruct Hinv as (_ & _ & _ & Hall). now apply Hall.
Qed.

Lemma foliageLoop_blends_each_particle_witness :
  let h : heap := fun b =>
                    match b with
                    | foliage_chaos => [1; 0; 0]
                    | foliage_tree => [0; 5; 0]
                    | _ => [0; 0; 0]
                    end in
  List.length (h foliage_current) = (1 * 3)%nat /\ (0 < 1)%nat
  /\ heap_point (foliageLoop foliage_current 1 0 h) foliage_current (0 * 3)
     = foliageBlend (V3 1 0 0) (V3 0 5 0) 1 0.
Proof.
  intros h.
  assert (Hlen : List.length (h foliage_current) = (1 * 3)%nat) by reflexivity.
  assert (Hi : (0 < 1)%nat) by lia.
  split; [exact Hlen | split; [exact Hi |]].
  exact (foliageLoop_blends_each_particle 1 0 h 1 0 Hlen Hi).
Defined.

Lemma instance_set_length {A : Type} (l : list A) (i : nat) (v : A) :
  List.length (instance_set l i v) = List.length l.
Proof. revert i. induction l as [| x l IH]; intros [| i]; cbn; auto. Qed.

Lemma instance_set_same {A : Type} (l : list A) (i : nat) (v : A) :
  (i < List.length l)%nat -> nth_error (instance_set l i v) i = Some v.
Proof.
  revert i. induction l as [| x l IH]; intros [| i] Hi; cbn in *; try lia; auto.
  apply IH. lia.
Qed.

Lemma instance_set_diff {A : Type} (l : list A) (i j : nat) (v : A) :
  i <> j -> nth_error (instance_set l i v) j = nth_error l j.
Proof.
  revert i j. induction l as [| x l IH]; intros [| i] [| j] Hij; cbn; auto; lia.
Qed.

(** X8: after the lights loop the [i]-th instance sits at the blend of the
    [i]-th light's chaos and tree points, and its blink scale
    [0.8 + 0.2 sin (3 time + 0.5 i)] lies between 0.6 and 1. *)
Theorem lightsLoop_places_each_light (easeV treeRotation time : R) (h : heap)
        (instances : list (vec3 R * R)) (i : nat) :
  List.length instances = lightCount -> (i < lightCount)%nat ->
  exists blink,
    nth_error (lightsLoop easeV treeRotation time h instances) i
    = Some (lightsBlend (heap_point h lights_chaos (i * 3))
                        (heap_point h lights_tree (i * 3))
                        easeV treeRotation,
            blink)
    /\ 0.6 <= blink <= 1.
Proof.
  intros Hlen Hi.
  exists (0.8 + sin (time * 3 + INR i * 0.5) * 0.2). split.
  - unfold lightsLoop.
    set (body := fun (i : nat) (instances : list (vec3 R * R)) => _).
    set (P := fun (k : nat) (l : list (vec3 R * R)) =>
                List.length l = lightCount
                /\ forall j, (j < k)%nat ->
                     nth_error l j
                     = Some (lightsBlend (heap_point h lights_chaos (j * 3))
                                         (heap_point h lights_tree (j * 3))
                                         easeV treeRotation,
                             0.8 + sin (time * 3 + INR j * 0.5) * 0.2)).
    assert (Hinv : P lightCount (for_loop lightCount body instances)).
    { apply (for_loop_indexed P); unfold P.
      - split; [exact Hlen | intros j Hj; lia].
      - intros k acc Hk (Hl & Hdone). subst body. cbv beta. split.
        + now rewrite instance_set_length.
        + intros j Hj. destruct (Nat.eq_dec j k) as [-> | Hne].
          * apply instance_set_same. lia.
          * rewrite instance_set_diff by lia. apply Hdone. lia. }
    destruct Hinv as [_ Hall]. now apply Hall.
  - pose proof (SIN_bound (time * 3 + INR i * 0.5)) as [Hlo Hhi]. lra.
Qed.

Lemma lightsLoop_places_each_light_witness :
  List.length (repeat (V3 0 0 0, 1) lightCount) = lightCount
  /\ (7 < lightCount)%nat
  /\ exists blink,
      nth_error (lightsLoop 1 0 2 allocate (repeat (V3 0 0 0, 1) lightCount)) 7
      = Some (lightsBlend (heap_point allocate lights_chaos (7 * 3))
                          (heap_point allocate lights_tree (7 * 3)) 1 0,
              blink)
      /\ 0.6 <= blink <= 1.
Proof.
  assert (Hlen : List.length (repeat (V3 0 0 0, 1) lightCount) = lightCount)
    by apply repeat_length.
  assert (Hi : (7 < lightCount)%nat) by (unfold lightCount; lia).
  split; [exact Hlen | split; [exact Hi |]].
  exact (lightsLoop_places_each_light 1 0 2 allocate _ 7 Hlen Hi).
Defined.

(** X30: a photo whose group is not mounted is left alone by a tick; a
    mounted one is placed at the photo blend of its chaos and tree points
    and turned: at [ease = 1] to its stored tilt about [x] and [z] and to
    [PI / 2 - (azimuth of the tree point + rotation angle)] about [y], at
    [ease = 0] to its stored chaos rotation. *)
Theorem photoUpdate_orientation (treeRotation : R) (d : ParticleData)
        (old : vec3 R * vec3 R) :
  (forall easeV, photoUpdate easeV treeRotation (PhotoObj d None)
                 = PhotoObj d None)
  /\ photoUpdate 1 treeRotation (PhotoObj d (Some old))
     = PhotoObj d (Some (photosBlend (chaosPos d) (treePos d) 1 treeRotation,
                         V3 (vx (treeRot d))
                            (PI / 2 - (azimuth (treePos d) + treeRotation))
                            (vz (treeRot d))))
  /\ photoUpdate 0 treeRotation (PhotoObj d (Some old))
     = PhotoObj d (Some (photosBlend (chaosPos d) (treePos d) 0 treeRotation,
                         chaosRot d)).
Proof.
  split; [reflexivity |].
  unfold photoUpdate. cbn [po_ref po_data].
  split; f_equal; f_equal; f_equal.
  - unfold azimuth, lerp; unfold_num. f_equal; ring.
  - destruct (chaosRot d) as [rx ry rz]. cbn [vx vy vz].
    unfold lerp; unfold_num. f_equal; ring.
Qed.

(** ** The shape of the generated layouts *)

Lemma horizontal_of_polar (r a y : R) :
  horizontal (V3 (cos a * r) y (sin a * r)) = Rabs r.
Proof.
  unfold horizontal. cbn [vx vz].
  replace (cos a * r * (cos a * r) + sin a * r * (sin a * r))
    with ((sin a * sin a + cos a * cos a) * r²) by (unfold Rsqr; ring).
  pose proof (sin2_cos2 a) as Hone. unfold Rsqr in Hone at 1 2.
  rewrite Hone, Rmult_1_l. apply sqrt_Rsqr_abs.
Qed.

Lemma flattened_sphere (r phi theta f : R) :
  f <> 0 ->
  (r * sin phi * cos theta) * (r * sin phi * cos theta)
  + (r * sin phi * sin theta * f / f) * (r * sin phi * sin theta * f / f)
  + (r * cos phi) * (r * cos phi)
  = r * r.
Proof.
  intros Hf.
  replace (r * sin phi * sin theta * f / f) with (r * sin phi * sin theta)
    by (field; exact Hf).
  pose proof (sin2_cos2 phi) as Hp. pose proof (sin2_cos2 theta) as Ht.
  unfold Rsqr in Hp, Ht.
  transitivity (r * r * ((sin phi * sin phi)
                         * (sin theta * sin theta + cos theta * cos theta)
                         + cos phi * cos phi)); [ring |].
  rewrite Ht, Rmult_1_r, Hp. ring.
Qed.

Lemma generatePhotos_map (rnd : nat -> R) :
  generatePhotos rnd
  = map (fun i => generatePhoto rnd 31 i (nth i (sort_strings photoFiles) EmptyString))
        (seq 0 31).
Proof.
  unfold generatePhotos. rewrite for_loop_push, sorted_photoFiles_length.
  reflexivity.
Qed.

Lemma generateOrnaments_map (rnd : nat -> R) :
  generateOrnaments rnd
  = map (generateOrnament rnd ornamentCount) (seq 0 ornamentCount).
Proof. unfold generateOrnaments. now rewrite for_loop_push. Qed.

(** X9: every generated photo's chaos point lies on a sphere of radius
    between 12 and 16 flattened to 0.6 of its height:
    [x^2 + (y / 0.6)^2 + z^2 = r^2] with [12 <= r < 16]. *)
Theorem photo_chaos_on_flattened_sphere (rnd : nat -> R) (p : ParticleData) :
  unit_random rnd -> In p (generatePhotos rnd) ->
  exists r,
    12 <= r < 16
    /\ vx (chaosPos p) * vx (chaosPos p)
       + (vy (chaosPos p) / 0.6) * (vy (chaosPos p) / 0.6)
       + vz (chaosPos p) * vz (chaosPos p)
       = r * r.
Proof.
  intros Hrnd Hin. rewrite generatePhotos_map in Hin.
  apply in_map_iff in Hin as (i & <- & _).
  exists (12 + photoDraw rnd i 0 * 4). split.
  - unfold photoDraw. pose proof (Hrnd (3 * particleCount + 5 * i + 0)%nat). lra.
  - unfold generatePhoto. cbn [chaosPos vx vy vz].
    apply flattened_sphere. lra.
Qed.

Lemma photo_chaos_on_flattened_sphere_witness :
  unit_random (fun _ => 0)
  /\ In (generatePhoto (fun _ => 0) 31 0 "2024_06_1.jpg")
        (generatePhotos (fun _ => 0))
  /\ exists r,
      12 <= r < 16
      /\ vx (chaosPos (generatePhoto (fun _ => 0) 31 0 "2024_06_1.jpg"))
         * vx (chaosPos (generatePhoto (fun _ => 0) 31 0 "2024_06_1.jpg"))
         + (vy (chaosPos (generatePhoto (fun _ => 0) 31 0 "2024_06_1.jpg")) / 0.6)
           * (vy (chaosPos (generatePhoto (fun _ => 0) 31 0 "2024_06_1.jpg")) / 0.6)
         + vz (chaosPos (generatePhoto (fun _ => 0) 31 0 "2024_06_1.jpg"))
           * vz (chaosPos (generatePhoto (fun _ => 0) 31 0 "2024_06_1.jpg"))
         = r * r.
Proof.
  assert (Hrnd : unit_random (fun _ => 0)) by (intros k; lra).
  assert (Hin : In (generatePhoto (fun _ => 0) 31 0 "2024_06_1.jpg")
                   (generatePhotos (fun _ => 0))).
  { rewrite generatePhotos_map. apply in_map_iff. exists 0%nat.
    split; [reflexivity | apply in_seq; lia]. }
  split; [exact Hrnd | split; [exact Hin |]].
  exact (photo_chaos_on_flattened_sphere _ _ Hrnd Hin).
Defined.

Lemma INR_30 : INR 30 = 30.
Proof. rewrite INR_IZR_INZ. reflexivity. Qed.

Lemma nth_generatePhotos (rnd : nat -> R) (i : nat) (p : ParticleData) :
  nth_error (generatePhotos rnd) i = Some p ->
  (i < 31)%nat
  /\ p = generatePhoto rnd 31 i (nth i (sort_strings photoFiles) EmptyString).
Proof.
  intros Hnth. rewrite generatePhotos_map in Hnth.
  assert (Hi : (i < 31)%nat).
  { match type of Hnth with
    | nth_error ?l _ = _ =>
        assert (Hlt : (i < List.length l)%nat)
          by (apply nth_error_Some; rewrite Hnth; discriminate)
    end.
    now rewrite length_map, length_seq in Hlt. }
  split; [exact Hi |].
  rewrite nth_error_map in Hnth.
  rewrite (nth_error_nth' _ 0%nat) in Hnth by (rewrite length_seq; exact Hi).
  rewrite seq_nth in Hnth by exact Hi. cbn [option_map Nat.add] in Hnth.
  now injection Hnth as <-.
Qed.

(** X10: the photos' tree points climb a spiral in index order.  Every
    one of the 31 photos, the last included, has its tree point at height
    [h = 14 i / 30 - 7] for its index [i], between -7 (the first) and 7
    (the last), at the angle [10 pi i / 30] around the axis with the signed
    radius [1.5 - 0.4 h], hence at distance [|1.5 - 0.4 h|] from the axis;
    and every later photo is strictly higher. *)
Theorem photo_tree_spiral (rnd : nat -> R) (i : nat) (p : ParticleData) :
  nth_error (generatePhotos rnd) i = Some p ->
  vy (treePos p) = 14 * (INR i / 30) - 7
  /\ - 7 <= vy (treePos p) <= 7
  /\ (i = 0%nat -> vy (treePos p) = - 7)
  /\ (i = 30%nat -> vy (treePos p) = 7)
  /\ vx (treePos p)
     = cos (INR i / 30 * PI * 10) * (1.5 - 0.4 * vy (treePos p))
  /\ vz (treePos p)
     = sin (INR i / 30 * PI * 10) * (1.5 - 0.4 * vy (treePos p))
  /\ horizontal (treePos p) = Rabs (1.5 - 0.4 * vy (treePos p))
  /\ (forall (j : nat) (q : ParticleData),
         (i < j)%nat ->
         nth_error (generatePhotos rnd) j = Some q ->
         vy (treePos p) < vy (treePos q)).
Proof.
  intros Hp.
  apply nth_generatePhotos in Hp as [Hi ->].
  unfold generatePhoto. cbn [treePos vx vy vz].
  change (31 - 1)%nat with 30%nat. rewrite INR_30.
  assert (Hi0 : 0 <= INR i) by apply pos_INR.
  assert (Hi30 : INR i <= 30).
  { rewrite <- INR_30. apply le_INR. lia. }
  split; [lra | split; [lra |]].
  split; [intros ->; cbn [INR]; lra |].
  split; [intros ->; rewrite INR_30; lra |].
  split; [f_equal; lra | split; [f_equal; lra |]].
  split.
  - rewrite horizontal_of_polar. f_equal. lra.
  - intros j q Hij Hq.
    apply nth_generatePhotos in Hq as [Hj ->].
    unfold generatePhoto. cbn [treePos vy].
    change (31 - 1)%nat with 30%nat. rewrite INR_30.
    assert (Hlt : INR i < INR j) by (apply lt_INR; exact Hij).
    lra.
Qed.

(** The last photo, index 30, is at height 7 and at distance 1.3 from the
    axis. *)
Lemma photo_tree_spiral_witness :
  exists p,
    nth_error (generatePhotos (fun _ => 0)) 30 = Some p
    /\ vy (treePos p) = 7
    /\ horizontal (treePos p) = 1.3.
Proof.
  assert (Hp : nth_error (generatePhotos (fun _ => 0)) 30
               = Some (generatePhoto (fun _ => 0) 31 30
                                     (nth 30 (sort_strings photoFiles) EmptyString))).
  { rewrite generatePhotos_map. reflexivity. }
  eexists. split; [exact Hp |].
  destruct (photo_tree_spiral _ 30 _ Hp)
    as (_ & _ & _ & Hlast & _ & _ & Hhor & _).
  split; [exact (Hlast eq_refl) |].
  rewrite Hhor, (Hlast eq_refl).
  replace (1.5 - 0.4 * 7) with (- (1.3)) by lra.
  rewrite Rabs_Ropp. apply Rabs_right. lra.
Defined.

(** X11: every generated ornament has its chaos point on a sphere of
    radius between 12 and 20 flattened to 0.7 of its height, a target height
    in [[-5.5, 5.5)], the signed target radius [0.75 - 0.5 h] at height [h]
    (negative above [h = 1.5]) and a scale in [[0.12, 0.3)]. *)
Theorem ornament_layout (rnd : nat -> R) (o : Ornament) :
  unit_random rnd -> In o (generateOrnaments rnd) ->
  (exists r,
      12 <= r < 20
      /\ vx (o_chaosPos o) * vx (o_chaosPos o)
         + (vy (o_chaosPos o) / 0.7) * (vy (o_chaosPos o) / 0.7)
         + vz (o_chaosPos o) * vz (o_chaosPos o)
         = r * r)
  /\ - 5.5 <= cyl_h (o_treeCyl o) < 5.5
  /\ cyl_r (o_treeCyl o) = 0.75 - 0.5 * cyl_h (o_treeCyl o)
  /\ 0.12 <= o_scale o < 0.3.
Proof.
  intros Hrnd Hin. rewrite generateOrnaments_map in Hin.
  apply in_map_iff in Hin as (i & <- & Hi). apply in_seq in Hi.
  unfold generateOrnament. cbn [o_chaosPos o_treeCyl o_scale cyl_h cyl_r vx vy vz].
  assert (Hcount : INR ornamentCount = 40).
  { unfold ornamentCount. rewrite INR_IZR_INZ. reflexivity. }
  rewrite Hcount.
  assert (Hi0 : 0 <= INR i) by apply pos_INR.
  assert (Hi40 : INR i < 40).
  { rewrite <- Hcount. apply lt_INR. lia. }
  split; [| split; [lra | split; [lra |]]].
  - exists (12 + rnd (5 * i)%nat * 8). split.
    + pose proof (Hrnd (5 * i)%nat). lra.
    + apply flattened_sphere. lra.
  - pose proof (Hrnd (5 * i + 3)%nat). lra.
Qed.

Lemma ornament_layout_witness :
  unit_random (fun _ => 0)
  /\ In (generateOrnament (fun _ => 0) ornamentCount 39)
        (generateOrnaments (fun _ => 0))
  /\ cyl_r (o_treeCyl (generateOrnament (fun _ => 0) ornamentCount 39))
     = 0.75 - 0.5 * cyl_h (o_treeCyl (generateOrnament (fun _ => 0) ornamentCount 39)).
Proof.
  assert (Hrnd : unit_random (fun _ => 0)) by (intros k; lra).
  assert (Hin : In (generateOrnament (fun _ => 0) ornamentCount 39)
                   (generateOrnaments (fun _ => 0))).
  { rewrite generateOrnaments_map. apply in_map. apply in_seq.
    unfold ornamentCount. lia. }
  split; [exact Hrnd | split; [exact Hin |]].
  exact (proj1 (proj2 (proj2 (ornament_layout _ _ Hrnd Hin)))).
Defined.

Lemma panelsOf_images (world : nat -> option (vec3 R)) (photos : list ParticleData)
      (obj : PhotoPanel) :
  In obj (panelsOf world photos) ->
  exists p, In p photos /\ panel_image obj = image p.
Proof.
  unfold panelsOf. intros Hin.
  apply in_map_iff in Hin as ([i p] & <- & Hin).
  apply in_combine_r in Hin. exists p. auto.
Qed.

(** X12: the panels of the generated photos, wherever their groups are,
    all carry a url of the form ["/photos/" ++ file], so none is empty: the
    selection effect's truthiness test never discards a found panel. *)
Theorem generated_panels_have_urls (rnd : nat -> R)
        (world : nat -> option (vec3 R)) :
  nonempty_images (panelsOf world (generatePhotos rnd))
  /\ forall obj, In obj (panelsOf world (generatePhotos rnd)) ->
       exists file, panel_image obj = String.append "/photos/" file.
Proof.
  assert (Hurl : forall obj, In obj (panelsOf world (generatePhotos rnd)) ->
                   exists file, panel_image obj = String.append "/photos/" file).
  { intros obj Hin. apply panelsOf_images in Hin as (p & Hp & ->).
    rewrite generatePhotos_map in Hp. apply in_map_iff in Hp as (i & <- & _).
    eexists. reflexivity. }
  split; [| exact Hurl].
  unfold nonempty_images. apply Forall_forall. intros obj Hin.
  destruct (Hurl obj Hin) as (file & ->). discriminate.
Qed.

Lemma heap_point_set_other (h : heap) (b b' : buffer) (i j3 : nat) (v : R) :
  buffer_eqb b b' = false ->
  heap_point (heap_set h b i v) b' j3 = heap_point h b' j3.
Proof. intros Hb. apply heap_point_ext. now apply heap_set_other. Qed.

Lemma INR_lightCount : INR lightCount = 300.
Proof. unfold lightCount. rewrite INR_IZR_INZ. reflexivity. Qed.

#[local] Opaque particleCount lightCount for_loop.

(** What [generateFoliage] leaves in the foliage arrays. *)
Lemma generateFoliage_contents (rnd sphere : nat -> R) (h0 : heap) :
  (forall b, List.length (h0 b) = List.length (allocate b)) ->
  let h := generateFoliage rnd sphere h0 in
  (forall k, (k < particleCount * 3)%nat -> heap_get h foliage_chaos k = sphere k)
  /\ (forall i, (i < particleCount)%nat ->
        heap_point h foliage_tree (i * 3)
        = V3 (cos (rnd (3 * i)%nat * 14 * 3.0 + rnd (3 * i + 1)%nat * PI * 2)
              * ((14 - rnd (3 * i)%nat * 14) * 0.45))
             (rnd (3 * i)%nat * 14 - 6)
             (sin (rnd (3 * i)%nat * 14 * 3.0 + rnd (3 * i + 1)%nat * PI * 2)
              * ((14 - rnd (3 * i)%nat * 14) * 0.45))
        /\ heap_get h foliage_sizes i = rnd (3 * i + 2)%nat * 1.5 + 0.5).
Proof.
  intros Hlen0 h. subst h. unfold generateFoliage.
  set (fill := for_loop (particleCount * 3) _ h0).
  assert (Hfill : (forall b, List.length (fill b) = List.length (allocate b))
                  /\ forall k, (k < particleCount * 3)%nat ->
                               heap_get fill foliage_chaos k = sphere k).
  { subst fill.
    set (P := fun (n : nat) (h : heap) =>
                (forall b, List.length (h b) = List.length (allocate b))
                /\ forall k, (k < n)%nat -> heap_get h foliage_chaos k = sphere k).
    apply (for_loop_indexed P); unfold P.
    - split; [exact Hlen0 | intros k Hk; lia].
    - intros n acc Hn (Hl & Hdone). split.
      + intros b. now rewrite heap_set_length.
      + intros k Hk. destruct (Nat.eq_dec k n) as [-> | Hne].
        * apply heap_get_set_same. rewrite Hl, allocate_length. exact Hn.
        * rewrite heap_get_set_diff by lia. apply Hdone. lia. }
  destruct Hfill as [Hlen1 Hchaos].
  set (body := fun (i : nat) (h : heap) => _).
  set (P := fun (n : nat) (h : heap) =>
              (forall b, List.length (h b) = List.length (allocate b))
              /\ h foliage_chaos = fill foliage_chaos
              /\ forall i, (i < n)%nat ->
                   heap_point h foliage_tree (i * 3)
                   = V3 (cos (rnd (3 * i)%nat * 14 * 3.0 + rnd (3 * i + 1)%nat * PI * 2)
                         * ((14 - rnd (3 * i)%nat * 14) * 0.45))
                        (rnd (3 * i)%nat * 14 - 6)
                        (sin (rnd (3 * i)%nat * 14 * 3.0 + rnd (3 * i + 1)%nat * PI * 2)
                         * ((14 - rnd (3 * i)%nat * 14) * 0.45))
                   /\ heap_get h foliage_sizes i = rnd (3 * i + 2)%nat * 1.5 + 0.5).
  assert (Hinv : P particleCount (for_loop particleCount body fill)).
  { apply (for_loop_indexed P); unfold P.
    - split; [exact Hlen1 | split; [reflexivity | intros i Hi; lia]].
    - intros n acc Hn (Hl & Hc & Hdone). subst body. cbv beta.
      split; [| split].
      + intros b. now rewrite !heap_set_length.
      + now rewrite !heap_set_other.
      + intros i Hi.
        rewrite heap_point_set_other by reflexivity.
        destruct (Nat.eq_dec i n) as [-> | Hne].
        * split.
          -- apply heap_point_written. rewrite Hl, allocate_length. lia.
          -- apply heap_get_set_same. rewrite !heap_set_length, Hl, allocate_length.
             exact Hn.
        * rewrite heap_point_kept by lia.
          rewrite heap_get_set_diff by lia.
          rewrite !heap_get_set_other by reflexivity.
          apply Hdone. lia. }
  destruct Hinv as (_ & Hc & Hall). split.
  - intros k Hk. unfold heap_get. rewrite Hc. now apply Hchaos.
  - exact Hall.
Qed.

Lemma generateLights_keeps_foliage (lSphere : nat -> R) (h : heap) (b : buffer) :
  buffer_eqb lights_chaos b = false -> buffer_eqb lights_tree b = false ->
  generateLights lSphere h b = h b.
Proof.
  intros Hc Ht. unfold generateLights.
  apply for_loop_inv with (P := fun h' : heap => h' b = h b).
  - apply for_loop_inv with (P := fun h' : heap => h' b = h b); [reflexivity |].
    intros i acc _ Hacc. now rewrite heap_set_other.
  - intros i acc _ Hacc. now rewrite !heap_set_other.
Qed.

(** X13: in the generated scene the foliage chaos array holds what
    [random.inSphere] returned, and every foliage tree point lies on the
    cone: its height [y] is in [[-6, 8)] and its distance from the axis is
    [0.45 (8 - y)], shrinking linearly to the tip; every particle size is in
    [[0.5, 2)]. *)
Theorem generated_foliage_on_cone (rnd sphere lSphere : nat -> R)
        (mounted : nat -> bool) (i : nat) :
  unit_random rnd -> (i < particleCount)%nat ->
  let h := ts_heap (initialScene rnd sphere lSphere mounted) in
  heap_point h foliage_chaos (i * 3)
  = V3 (sphere (i * 3)%nat) (sphere (i * 3 + 1)%nat) (sphere (i * 3 + 2)%nat)
  /\ - 6 <= vy (heap_point h foliage_tree (i * 3)) < 8
  /\ horizontal (heap_point h foliage_tree (i * 3))
     = 0.45 * (8 - vy (heap_point h foliage_tree (i * 3)))
  /\ 0.5 <= heap_get h foliage_sizes i < 2.
Proof.
  intros Hrnd Hi h. subst h. unfold initialScene. cbn [ts_heap].
  destruct (generateFoliage_contents rnd sphere allocate (fun b => eq_refl))
    as [Hchaos Htree].
  destruct (Htree i Hi) as [Hpoint Hsize].
  set (hf := generateFoliage rnd sphere allocate) in *.
  assert (Hkeep : forall b, buffer_eqb lights_chaos b = false ->
                            buffer_eqb lights_tree b = false ->
                            generateLights lSphere hf b = hf b).
  { intros b Hc Ht. now apply generateLights_keeps_foliage. }
  pose proof (Hkeep foliage_chaos eq_refl eq_refl) as Hkc.
  pose proof (Hkeep foliage_tree eq_refl eq_refl) as Hkt.
  pose proof (Hkeep foliage_sizes eq_refl eq_refl) as Hks.
  rewrite (heap_point_ext _ hf foliage_chaos (i * 3) Hkc).
  rewrite (heap_point_ext _ hf foliage_tree (i * 3) Hkt).
  assert (Hsz : heap_get (generateLights lSphere hf) foliage_sizes i
                = rnd (3 * i + 2)%nat * 1.5 + 0.5).
  { unfold heap_get in *. rewrite Hks. exact Hsize. }
  rewrite Hpoint, Hsz.
  pose proof (Hrnd (3 * i)%nat) as H0. pose proof (Hrnd (3 * i + 2)%nat) as H2.
  split; [| split; [| split]].
  - unfold heap_point. rewrite !Hchaos by lia. reflexivity.
  - cbn [vy]. lra.
  - rewrite horizontal_of_polar. cbn [vy]. rewrite Rabs_pos_eq by lra. lra.
  - lra.
Qed.

(** What [generateLights] leaves in the lights arrays. *)
Lemma generateLights_contents (lSphere : nat -> R) (h0 : heap) :
  (forall b, List.length (h0 b) = List.length (allocate b)) ->
  let h := generateLights lSphere h0 in
  (forall k, (k < lightCount * 3)%nat -> heap_get h lights_chaos k = lSphere k)
  /\ (forall i, (i < lightCount)%nat ->
        heap_point h lights_tree (i * 3)
        = V3 (cos (INR i / INR lightCount * PI * 25)
              * ((14 - INR i / INR lightCount * 13) * 0.48))
             (INR i / INR lightCount * 13 - 6)
             (sin (INR i / INR lightCount * PI * 25)
              * ((14 - INR i / INR lightCount * 13) * 0.48))).
Proof.
  intros Hlen0 h. subst h. unfold generateLights.
  set (fill := for_loop (lightCount * 3) _ h0).
  assert (Hfill : (forall b, List.length (fill b) = List.length (allocate b))
                  /\ forall k, (k < lightCount * 3)%nat ->
                               heap_get fill lights_chaos k = lSphere k).
  { subst fill.
    set (P := fun (n : nat) (h : heap) =>
                (forall b, List.length (h b) = List.length (allocate b))
                /\ forall k, (k < n)%nat -> heap_get h lights_chaos k = lSphere k).
    apply (for_loop_indexed P); unfold P.
    - split; [exact Hlen0 | intros k Hk; lia].
    - intros n acc Hn (Hl & Hdone). split.
      + intros b. now rewrite heap_set_length.
      + intros k Hk. destruct (Nat.eq_dec k n) as [-> | Hne].
        * apply heap_get_set_same. rewrite Hl, allocate_length. exact Hn.
        * rewrite heap_get_set_diff by lia. apply Hdone. lia. }
  destruct Hfill as [Hlen1 Hchaos].
  set (body := fun (i : nat) (h : heap) => _).
  set (P := fun (n : nat) (h : heap) =>
              (forall b, List.length (h b) = List.length (allocate b))
              /\ h lights_chaos = fill lights_chaos
              /\ forall i, (i < n)%nat ->
                   heap_point h lights_tree (i * 3)
                   = V3 (cos (INR i / INR lightCount * PI * 25)
                         * ((14 - INR i / INR lightCount * 13) * 0.48))
                        (INR i / INR lightCount * 13 - 6)
                        (sin (INR i / INR lightCount * PI * 25)
                         * ((14 - INR i / INR lightCount * 13) * 0.48))).
  assert (Hinv : P lightCount (for_loop lightCount body fill)).
  { apply (for_loop_indexed P); unfold P.
    - split; [exact Hlen1 | split; [reflexivity | intros i Hi; lia]].
    - intros n acc Hn (Hl & Hc & Hdone). subst body. cbv beta.
      split; [| split].
      + intros b. now rewrite !heap_set_length.
      + now rewrite !heap_set_other.
      + intros i Hi. destruct (Nat.eq_dec i n) as [-> | Hne].
        * apply heap_point_written. rewrite Hl, allocate_length. lia.
        * rewrite heap_point_kept by lia. apply Hdone. lia. }
  destruct Hinv as (_ & Hc & Hall). split.
  - intros k Hk. unfold heap_get. rewrite Hc. now apply Hchaos.
  - exact Hall.
Qed.

(** X14: in the generated scene the lights chaos array holds what
    [random.inSphere] returned, and the lights' tree points climb a cone in
    index order.  Every one of the 300 lights, the last included, has all
    three cells of its chaos point copied, and its tree point at height
    [y = 13 i / 300 - 6] for its index [i], in [[-6, 7)], at the angle
    [25 pi i / 300] around the axis and at distance [0.48 (8 - y)] from it;
    and every later light is strictly higher. *)
Theorem generated_lights_on_cone (rnd sphere lSphere : nat -> R)
        (mounted : nat -> bool) (i : nat) :
  (i < lightCount)%nat ->
  let h := ts_heap (initialScene rnd sphere lSphere mounted) in
  heap_point h lights_chaos (i * 3)
  = V3 (lSphere (i * 3)%nat) (lSphere (i * 3 + 1)%nat) (lSphere (i * 3 + 2)%nat)
  /\ vy (heap_point h lights_tree (i * 3)) = 13 * (INR i / 300) - 6
  /\ - 6 <= vy (heap_point h lights_tree (i * 3)) < 7
  /\ vx (heap_point h lights_tree (i * 3))
     = cos (INR i / 300 * PI * 25)
       * (0.48 * (8 - vy (heap_point h lights_tree (i * 3))))
  /\ vz (heap_point h lights_tree (i * 3))
     = sin (INR i / 300 * PI * 25)
       * (0.48 * (8 - vy (heap_point h lights_tree (i * 3))))
  /\ horizontal (heap_point h lights_tree (i * 3))
     = 0.48 * (8 - vy (heap_point h lights_tree (i * 3)))
  /\ (forall j : nat,
         (i < j)%nat -> (j < lightCount)%nat ->
         vy (heap_point h lights_tree (i * 3))
         < vy (heap_point h lights_tree (j * 3))).
Proof.
  intros Hi h. subst h. unfold initialScene. cbn [ts_heap].
  assert (Hlen : forall b,
             List.length (generateFoliage rnd sphere allocate b)
             = List.length (allocate b)).
  { intros b. unfold generateFoliage.
    repeat (apply for_loop_inv
              with (P := fun h : heap => List.length (h b) = List.length (allocate b));
            [| intros k acc _ Hacc; rewrite ?heap_set_length; exact Hacc]).
    reflexivity. }
  destruct (generateLights_contents lSphere _ Hlen) as [Hchaos Htree].
  rewrite (Htree i) by lia.
  rewrite INR_lightCount. cbn [vx vy vz].
  assert (Hi0 : 0 <= INR i) by apply pos_INR.
  assert (Hi300 : INR i < 300).
  { rewrite <- INR_lightCount. now apply lt_INR. }
  split; [| split; [| split; [| split; [| split; [| split]]]]]; try lra.
  - unfold heap_point. rewrite !Hchaos by lia. reflexivity.
  - rewrite horizontal_of_polar. rewrite Rabs_pos_eq by lra. lra.
  - intros j Hij Hj. rewrite (Htree j) by lia.
    rewrite INR_lightCount. cbn [vy].
    assert (Hlt : INR i < INR j) by now apply lt_INR.
    lra.
Qed.

#[local] Transparent particleCount lightCount for_loop.

(** The last light, index 299, is below height 7. *)
Lemma generated_lights_on_cone_witness :
  (299 < lightCount)%nat
  /\ - 6 <= vy (heap_point (ts_heap (initialScene (fun _ => 0) (fun _ => 0)
                                                  (fun _ => 0) (fun _ => true)))
                           lights_tree (299 * 3)) < 7.
Proof.
  assert (Hi : (299 < lightCount)%nat) by (unfold lightCount; lia).
  split; [exact Hi |].
  exact (proj1 (proj2 (proj2 (generated_lights_on_cone
                                (fun _ => 0) (fun _ => 0) (fun _ => 0)
                                (fun _ => true) 299 Hi)))).
Defined.

Lemma generated_foliage_on_cone_witness :
  unit_random (fun _ => 0) /\ (0 < particleCount)%nat
  /\ horizontal (heap_point (ts_heap (initialScene (fun _ => 0) (fun _ => 0)
                                                   (fun _ => 0) (fun _ => true)))
                            foliage_tree (0 * 3))
     = 0.45 * (8 - vy (heap_point (ts_heap (initialScene (fun _ => 0) (fun _ => 0)
                                                         (fun _ => 0) (fun _ => true)))
                                  foliage_tree (0 * 3))).
Proof.
  assert (Hrnd : unit_random (fun _ => 0)) by (intros k; lra).
  assert (Hi : (0 < particleCount)%nat) by (unfold particleCount; lia).
  split; [exact Hrnd | split; [exact Hi |]].
  exact (proj1 (proj2 (proj2 (generated_foliage_on_cone
                                (fun _ => 0) (fun _ => 0) (fun _ => 0)
                                (fun _ => true) 0 Hrnd Hi)))).
Defined.

(** ** The selection lock over a run of triggers *)



(** ** The texture cache *)

Lemma smap_set_same {A : Type} (m : smap A) (k : string) (v : A) :
  smap_set m k v k = Some v.
Proof. unfold smap_set. now rewrite String.eqb_refl. Qed.

Lemma smap_set_diff {A : Type} (m : smap A) (k k' : string) (v : A) :
  k <> k' -> smap_set m k v k' = m k'.
Proof.
  intros Hne. unfold smap_set.
  destruct (String.eqb_spec k k'); [contradiction | reflexivity].
Qed.

Lemma smap_delete_diff {A : Type} (m : smap A) (k k' : string) :
  k <> k' -> smap_delete m k k' = m k'.
Proof.
  intros Hne. unfold smap_delete.
  destruct (String.eqb_spec k k'); [contradiction | reflexivity].
Qed.

Lemma cacheStep_ok (s : TextureStore) (e : CacheEvent) :
  cache_ok s -> cache_ok (cacheStep s e).
Proof.
  intros [Hnd Hin]. destruct e as [url | url p tex | p]; cbn [cacheStep].
  - unfold loadTextureWithCache.
    destruct (textureCache s url) as [tex |] eqn:Hc; [now split |].
    destruct (loadingPromises s url) as [p |] eqn:Hl; [now split |].
    cbn [snd]. split; cbn [issued textureCache loadingPromises].
    + constructor; [| exact Hnd].
      intros Hold. destruct (Hin url Hold) as [H | H]; congruence.
    + intros u [<- | Hu].
      * right. rewrite smap_set_same. discriminate.
      * destruct (Hin u Hu) as [H | H]; [now left | right].
        destruct (String.eqb_spec url u) as [-> | Hne].
        -- rewrite smap_set_same. discriminate.
        -- now rewrite smap_set_diff.
  - split; cbn [issued textureCache loadingPromises onTextureLoaded];
      [exact Hnd |].
    intros u Hu. destruct (String.eqb_spec url u) as [-> | Hne].
    + left. rewrite smap_set_same. discriminate.
    + rewrite smap_set_diff, smap_delete_diff by exact Hne. now apply Hin.
  - now split.
Qed.

(** X19: however requests, completions and failures interleave, starting
    from the empty cache, no url is handed to [loader.load] more than once:
    not while it is in flight, not after it has loaded, and not after it
    has failed. *)
Theorem each_url_fetched_at_most_once (es : list CacheEvent) :
  NoDup (issued (cacheRun es emptyStore)).
Proof.
  assert (Hok : forall s, cache_ok s -> cache_ok (cacheRun es s)).
  { unfold cacheRun. induction es as [| e es IH]; intros s Hs; cbn [fold_left];
      [exact Hs |].
    apply IH, cacheStep_ok, Hs. }
  apply Hok. split; [constructor | intros u []].
Qed.

Lemma cacheStep_keeps_cached (s : TextureStore) (e : CacheEvent) (url : string) :
  textureCache s url <> None -> textureCache (cacheStep s e) url <> None.
Proof.
  intros Hc. destruct e as [u | u p tex | p]; cbn [cacheStep].
  - unfold loadTextureWithCache.
    destruct (textureCache s u); [exact Hc |].
    destruct (loadingPromises s u); exact Hc.
  - cbn [onTextureLoaded textureCache].
    destruct (String.eqb_spec u url) as [-> | Hne].
    + rewrite smap_set_same. discriminate.
    + now rewrite smap_set_diff.
  - exact Hc.
Qed.

(** X20: a url that is in the cache stays there through any events, and a
    request for it is then answered at once with a cached texture, without
    touching the store. *)
Theorem cached_url_is_served_from_cache (es : list CacheEvent)
        (s : TextureStore) (url : string) (tex : nat) :
  textureCache s url = Some tex ->
  exists tex',
    textureCache (cacheRun es s) url = Some tex'
    /\ loadTextureWithCache url (cacheRun es s)
       = (Immediate tex', cacheRun es s).
Proof.
  intros Hc.
  assert (Hkept : textureCache (cacheRun es s) url <> None).
  { assert (Hs : textureCache s url <> None) by congruence.
    clear Hc. unfold cacheRun. revert s Hs.
    induction es as [| e es IH]; intros s Hs; cbn [fold_left]; [exact Hs |].
    apply IH. now apply cacheStep_keeps_cached. }
  destruct (textureCache (cacheRun es s) url) as [tex' |] eqn:Hrun;
    [| contradiction].
  exists tex'. split; [reflexivity |].
  unfold loadTextureWithCache. now rewrite Hrun.
Qed.

Lemma cached_url_is_served_from_cache_witness :
  textureCache (cacheRun [Request "a"%string; LoadedEv "a"%string 0 7] emptyStore) "a"%string = Some 7%nat
  /\ exists tex',
      loadTextureWithCache
        "a"%string (cacheRun [Request "b"%string; FailedEv 1]
                      (cacheRun [Request "a"%string; LoadedEv "a"%string 0 7] emptyStore))
      = (Immediate tex',
         cacheRun [Request "b"%string; FailedEv 1]
                  (cacheRun [Request "a"%string; LoadedEv "a"%string 0 7] emptyStore)).
Proof.
  assert (Hc : textureCache (cacheRun [Request "a"%string; LoadedEv "a"%string 0 7] emptyStore)
                            "a"%string = Some 7%nat) by reflexivity.
  split; [exact Hc |].
  destruct (cached_url_is_served_from_cache [Request "b"%string; FailedEv 1] _ _ _ Hc)
    as (tex' & _ & Hload).
  exists tex'. exact Hload.
Defined.

Lemma settle_keeps_rejected (st : nat -> PromiseState) (p q : nat)
      (v : PromiseState) :
  st q = Rejected -> settle st p v q = Rejected.
Proof.
  intros Hq. unfold settle. destruct (Nat.eqb p q); [now rewrite Hq | exact Hq].
Qed.

Lemma cacheStep_keeps_failed (s : TextureStore) (e : CacheEvent) (url : string)
      (p : nat) :
  loads url e = false ->
  textureCache s url = None /\ loadingPromises s url = Some p
  /\ promiseState s p = Rejected ->
  textureCache (cacheStep s e) url = None
  /\ loadingPromises (cacheStep s e) url = Some p
  /\ promiseState (cacheStep s e) p = Rejected.
Proof.
  intros He (Hc & Hl & Hp). destruct e as [u | u q tex | q]; cbn [cacheStep].
  - unfold loadTextureWithCache.
    destruct (textureCache s u) as [tex |] eqn:Hcu; [now repeat split |].
    destruct (loadingPromises s u) as [q |] eqn:Hlu; [now repeat split |].
    cbn [snd textureCache loadingPromises promiseState].
    split; [exact Hc | split; [| exact Hp]].
    destruct (String.eqb_spec u url) as [-> | Hne]; [congruence |].
    now rewrite smap_set_diff.
  - cbn [loads] in He. apply String.eqb_neq in He.
    cbn [onTextureLoaded textureCache loadingPromises promiseState].
    rewrite smap_set_diff, smap_delete_diff by exact He.
    split; [exact Hc | split; [exact Hl |]].
    now apply settle_keeps_rejected.
  - cbn [onTextureFailed textureCache loadingPromises promiseState].
    split; [exact Hc | split; [exact Hl |]].
    now apply settle_keeps_rejected.
Qed.

(** X21: a failed url is not retried.  If the load of a url was rejected
    and the url is still in [loadingPromises] (the failure callback never
    removes it), then, as long as no success callback for that url fires,
    every later request gets that same rejected promise and issues no new
    load. *)
Theorem failed_url_is_never_retried (es : list CacheEvent) (s : TextureStore)
        (url : string) (p : nat) :
  textureCache s url = None -> loadingPromises s url = Some p ->
  promiseState s p = Rejected ->
  forallb (fun e => negb (loads url e)) es = true ->
  loadTextureWithCache url (cacheRun es s) = (Shared p, cacheRun es s)
  /\ promiseState (cacheRun es s) p = Rejected.
Proof.
  intros Hc Hl Hp Hes.
  assert (Hrun : textureCache (cacheRun es s) url = None
                 /\ loadingPromises (cacheRun es s) url = Some p
                 /\ promiseState (cacheRun es s) p = Rejected).
  { unfold cacheRun. revert s Hc Hl Hp.
    induction es as [| e es IH]; intros s Hc Hl Hp; cbn [fold_left];
      [now repeat split |].
    cbn [forallb] in Hes. apply andb_prop in Hes as [He Hes].
    apply negb_true_iff in He.
    destruct (cacheStep_keeps_failed s e url p He (conj Hc (conj Hl Hp)))
      as (Hc' & Hl' & Hp').
    now apply IH. }
  destruct Hrun as (Hc' & Hl' & Hp'). split; [| exact Hp'].
  unfold loadTextureWithCache. now rewrite Hc', Hl'.
Qed.

Lemma failed_url_is_never_retried_witness :
  let s := cacheRun [Request "a"%string; FailedEv 0] emptyStore in
  textureCache s "a"%string = None /\ loadingPromises s "a"%string = Some 0%nat
  /\ promiseState s 0 = Rejected
  /\ forallb (fun e => negb (loads "a"%string e)) [Request "a"%string; Request "b"%string] = true
  /\ loadTextureWithCache "a"%string (cacheRun [Request "a"%string; Request "b"%string] s)
     = (Shared 0, cacheRun [Request "a"%string; Request "b"%string] s).
Proof.
  intros s.
  assert (Hc : textureCache s "a"%string = None) by reflexivity.
  assert (Hl : loadingPromises s "a"%string = Some 0%nat) by reflexivity.
  assert (Hp : promiseState s 0 = Rejected) by reflexivity.
  assert (Hes : forallb (fun e => negb (loads "a"%string e)) [Request "a"%string; Request "b"%string]
                = true) by reflexivity.
  split; [exact Hc | split; [exact Hl | split; [exact Hp | split; [exact Hes |]]]].
  exact (proj1 (failed_url_is_never_retried _ s "a"%string 0 Hc Hl Hp Hes)).
Defined.

(** ** A photo's loading *)

Lemma photoLoadStep_shape (url fallbackUrl : string) (s : PhotoLoad)
      (e : PhotoEvent) :
  photo_shape url fallbackUrl s ->
  photo_shape url fallbackUrl (photoLoadStep url fallbackUrl s e).
Proof.
  unfold photo_shape.
  intros [-> | [-> | [-> | [[tex ->] | [[tex ->] | ->]]]]];
    destruct e as [[|] | tex' |]; cbn; eauto 10.
Qed.

Lemma photoLoadRun_shape (url fallbackUrl : string) (es : list PhotoEvent)
      (s : PhotoLoad) :
  photo_shape url fallbackUrl s ->
  photo_shape url fallbackUrl (photoLoadRun url fallbackUrl es s).
Proof.
  unfold photoLoadRun. revert s.
  induction es as [| e es IH]; intros s Hs; cbn [fold_left]; [exact Hs |].
  apply IH. now apply photoLoadStep_shape.
Qed.

(** X22: whatever the effect runs and promise outcomes, a photo asks for
    at most two urls, first its own and then, once, the fallback; it is
    [pending] exactly while it has asked for nothing, [loaded] only with a
    texture, and [error] only after both urls were asked for. *)
Theorem photo_asks_at_most_twice (url fallbackUrl : string)
        (es : list PhotoEvent) :
  let s := photoLoadRun url fallbackUrl es initialPhotoLoad in
  (asked s = [] \/ asked s = [url] \/ asked s = [fallbackUrl; url])
  /\ (loadStatus s = st_pending <-> asked s = [])
  /\ (loadStatus s = st_loaded -> texture s <> None)
  /\ (loadStatus s = st_error -> asked s = [fallbackUrl; url]).
Proof.
  intros s.
  assert (Hshape : photo_shape url fallbackUrl s).
  { apply photoLoadRun_shape. now left. }
  destruct Hshape as [-> | [-> | [-> | [[tex ->] | [[tex ->] | ->]]]]];
    cbn [asked loadStatus texture];
    (split; [auto | split; [split; discriminate || reflexivity
                           | split; discriminate || reflexivity]]).
Qed.

(** X23: [loaded] and [error] are final: once a photo reached either, no
    further effect run or promise outcome changes its status, texture or
    requests; nothing is retried. *)
Theorem photo_final_states_absorb (url fallbackUrl : string)
        (before after : list PhotoEvent) :
  let s := photoLoadRun url fallbackUrl before initialPhotoLoad in
  loadStatus s = st_loaded \/ loadStatus s = st_error ->
  photoLoadRun url fallbackUrl after s = s.
Proof.
  intros s Hfinal.
  assert (Hshape : photo_shape url fallbackUrl s).
  { apply photoLoadRun_shape. now left. }
  assert (Hidle : waiting s = NoCallback /\ loadStatus s <> st_pending).
  { destruct Hshape as [-> | [-> | [-> | [[tex ->] | [[tex ->] | ->]]]]];
      cbn [loadStatus waiting] in *;
      destruct Hfinal; try discriminate; split; (reflexivity || discriminate). }
  clearbody s. destruct Hidle as [Hw Hp]. unfold photoLoadRun.
  induction after as [| e after IH]; cbn [fold_left]; [reflexivity |].
  assert (Hstep : photoLoadStep url fallbackUrl s e = s).
  { destruct e as [[|] | tex |]; cbn [photoLoadStep]; rewrite ?Hw; try reflexivity.
    destruct (loadStatus s); try reflexivity. contradiction. }
  now rewrite Hstep.
Qed.

Lemma photo_final_states_absorb_witness :
  loadStatus (photoLoadRun "u"%string "f"%string [EffectRun true; Rejects; Rejects]
                           initialPhotoLoad) = st_error
  /\ photoLoadRun "u"%string "f"%string [EffectRun true; Resolves 3]
                  (photoLoadRun "u"%string "f"%string [EffectRun true; Rejects; Rejects]
                                initialPhotoLoad)
     = photoLoadRun "u"%string "f"%string [EffectRun true; Rejects; Rejects] initialPhotoLoad.
Proof.
  assert (Herr : loadStatus (photoLoadRun "u"%string "f"%string [EffectRun true; Rejects; Rejects]
                                          initialPhotoLoad) = st_error)
    by reflexivity.
  split; [exact Herr |].
  exact (photo_final_states_absorb "u"%string "f"%string [EffectRun true; Rejects; Rejects]
                                   [EffectRun true; Resolves 3]
                                   (or_intror Herr)).
Defined.

(** ** The hover animation *)

Lemma hoverStep_gap (isSelected : bool) (delta hoverScale : R) :
  hoverTarget isSelected - hoverStep isSelected delta hoverScale
  = (1 - delta * 8) * (hoverTarget isSelected - hoverScale).
Proof. unfold hoverStep, lerp; unfold_num. ring. Qed.

(** X24: with a frame time of at most 1/8 s the hover scale stays between
    1 and 1.15 once it is there, and comes no farther from its target. *)
Theorem hover_scale_stays_in_range (isSelected : bool) (delta hoverScale : R) :
  0 <= delta <= 1 / 8 -> 1 <= hoverScale <= 1.15 ->
  1 <= hoverStep isSelected delta hoverScale <= 1.15
  /\ Rabs (hoverTarget isSelected - hoverStep isSelected delta hoverScale)
     <= Rabs (hoverTarget isSelected - hoverScale).
Proof.
  intros Hd Hh.
  pose proof (hoverStep_gap isSelected delta hoverScale) as Hgap.
  split.
  - destruct isSelected; unfold hoverTarget in Hgap; nra.
  - rewrite Hgap, Rabs_mult, (Rabs_pos_eq (1 - delta * 8)) by lra.
    pose proof (Rabs_pos (hoverTarget isSelected - hoverScale)). nra.
Qed.

Lemma hover_scale_stays_in_range_witness :
  0 <= 1 / 60 <= 1 / 8 /\ 1 <= 1 <= 1.15
  /\ 1 <= hoverStep true (1 / 60) 1 <= 1.15.
Proof.
  assert (Hd : 0 <= 1 / 60 <= 1 / 8) by lra.
  assert (Hh : 1 <= 1 <= 1.15) by lra.
  split; [exact Hd | split; [exact Hh |]].
  exact (proj1 (hover_scale_stays_in_range true (1 / 60) 1 Hd Hh)).
Defined.

(** X25: the hover step is a plain [lerp] with factor [8 delta], not a
    damping: after a frame longer than 1/4 s the scale is farther from its
    target than before (on the other side of it), unless it was on it. *)
Theorem hover_scale_overshoots_on_long_frames (isSelected : bool)
        (delta hoverScale : R) :
  1 / 4 < delta -> hoverScale <> hoverTarget isSelected ->
  Rabs (hoverTarget isSelected - hoverScale)
  < Rabs (hoverTarget isSelected - hoverStep isSelected delta hoverScale)
  /\ (hoverTarget isSelected - hoverScale)
     * (hoverTarget isSelected - hoverStep isSelected delta hoverScale) < 0.
Proof.
  intros Hd Hne.
  rewrite hoverStep_gap.
  set (g := hoverTarget isSelected - hoverScale).
  assert (Hg : g <> 0) by (unfold g; lra).
  assert (Hpos : 0 < Rabs g) by now apply Rabs_pos_lt.
  split.
  - rewrite Rabs_mult, (Rabs_left (1 - delta * 8)) by lra. nra.
  - assert (0 < g * g) by (destruct (Rtotal_order g 0) as [? | [? | ?]]; nra).
    nra.
Qed.

Lemma hover_scale_overshoots_on_long_frames_witness :
  1 / 4 < 1 / 2 /\ 1 <> hoverTarget true
  /\ Rabs (hoverTarget true - 1) < Rabs (hoverTarget true - hoverStep true (1 / 2) 1).
Proof.
  assert (Hd : 1 / 4 < 1 / 2) by lra.
  assert (Hne : 1 <> hoverTarget true) by (unfold hoverTarget; lra).
  split; [exact Hd | split; [exact Hne |]].
  exact (proj1 (hover_scale_overshoots_on_long_frames true (1 / 2) 1 Hd Hne)).
Defined.

(** ** Progressive loading *)

(** X26: started at 0, the loaded count after [k] runs of the effect is
    [min (2 k, photoCount)]: it grows by two, never passes the number of
    photos, and photo [i] is told to load from run [i / 2 + 1] on. *)
Theorem loaded_count_after_runs (photoCount k : nat) :
  Nat.iter k (loadedCountStep photoCount) 0%nat = Nat.min (2 * k) photoCount
  /\ (Nat.iter k (loadedCountStep photoCount) 0 <= photoCount)%nat
  /\ forall i, (i < photoCount)%nat ->
               shouldLoad i (Nat.iter k (loadedCountStep photoCount) 0%nat)
               = (i / 2 <? k)%nat.
Proof.
  assert (Hiter : Nat.iter k (loadedCountStep photoCount) 0%nat
                  = Nat.min (2 * k) photoCount).
  { induction k as [| k IH]; [reflexivity |].
    rewrite Nat.iter_succ, IH. unfold loadedCountStep, loadNext.
    destruct (Nat.leb_spec photoCount (Nat.min (2 * k) photoCount)); lia. }
  rewrite Hiter. split; [reflexivity | split; [lia |]].
  intros i Hi. unfold shouldLoad.
  destruct (Nat.ltb_spec i (Nat.min (2 * k) photoCount));
    destruct (Nat.ltb_spec (i / 2) k); try reflexivity; exfalso.
  - assert (i < 2 * k)%nat by lia.
    assert (i / 2 < k)%nat by (apply Nat.Div0.div_lt_upper_bound; lia). lia.
  - assert (2 * k <= i)%nat by lia.
    assert (k <= i / 2)%nat by (apply Nat.div_le_lower_bound; lia). lia.
Qed.

(** ** The trunk *)

Lemma Rleb_true (x y : R) : Rleb x y = true <-> x <= y.
Proof.
  unfold Rleb. destruct (Rle_dec x y); split; intros; congruence || assumption.
Qed.

Lemma Rleb_false (x y : R) : Rleb x y = false <-> y < x.
Proof.
  unfold Rleb. destruct (Rle_dec x y); split; intros; try congruence; lra.
Qed.

Lemma smoothstep_unit (x lo hi : R) : lo < hi -> 0 <= smoothstep x lo hi <= 1.
Proof.
  intros Hlh. unfold smoothstep.
  destruct (Rleb x lo) eqn:H1; [lra |]. apply Rleb_false in H1.
  destruct (Rleb hi x) eqn:H2; [lra |]. apply Rleb_false in H2.
  cbv zeta.
  assert (Hu : 0 <= (x - lo) / (hi - lo) <= 1).
  { split.
    - apply Rmult_le_pos; [lra |]. left. apply Rinv_0_lt_compat. lra.
    - apply Rmult_le_reg_r with (hi - lo); [lra |].
      unfold Rdiv. rewrite Rmult_assoc, Rinv_l by lra. lra. }
  exact (ease_unit _ Hu).
Qed.

Lemma smoothstep_monotone (x y lo hi : R) :
  lo < hi -> x <= y -> smoothstep x lo hi <= smoothstep y lo hi.
Proof.
  intros Hlh Hxy.
  pose proof (smoothstep_unit x lo hi Hlh) as Hx.
  pose proof (smoothstep_unit y lo hi Hlh) as Hy.
  unfold smoothstep in *.
  destruct (Rleb x lo) eqn:Hx1; [lra |]. apply Rleb_false in Hx1.
  destruct (Rleb y lo) eqn:Hy1; [apply Rleb_true in Hy1; lra |].
  apply Rleb_false in Hy1.
  destruct (Rleb hi y) eqn:Hy2; [lra |]. apply Rleb_false in Hy2.
  destruct (Rleb hi x) eqn:Hx2; [apply Rleb_true in Hx2; lra |].
  apply Rleb_false in Hx2. cbv zeta.
  assert (Hinv : 0 < / (hi - lo)) by (apply Rinv_0_lt_compat; lra).
  assert (Hux : 0 <= (x - lo) / (hi - lo)).
  { apply Rmult_le_pos; lra. }
  assert (Huxy : (x - lo) / (hi - lo) <= (y - lo) / (hi - lo)).
  { unfold Rdiv. apply Rmult_le_compat_r; lra. }
  assert (Huy : (y - lo) / (hi - lo) <= 1).
  { apply Rmult_le_reg_r with (hi - lo); [lra |].
    unfold Rdiv. rewrite Rmult_assoc, Rinv_l by lra. lra. }
  destruct ease_smoothstep as (_ & _ & _ & _ & Hmono).
  exact (Hmono _ _ Hux Huxy Huy).
Qed.

(** X27: the trunk's width scale is 0 while the ease is at most 0.3, is 1
    from ease 1 on, lies between 0 and 1 in between and never shrinks as
    the ease grows; its height scale is the ease itself. *)
Theorem trunk_scale_profile (e1 e2 : R) :
  0 <= vx (trunkScale e1) <= 1
  /\ vz (trunkScale e1) = vx (trunkScale e1)
  /\ vy (trunkScale e1) = e1
  /\ (e1 <= 0.3 -> vx (trunkScale e1) = 0)
  /\ (1 <= e1 -> vx (trunkScale e1) = 1)
  /\ (e1 <= e2 -> vx (trunkScale e1) <= vx (trunkScale e2)).
Proof.
  unfold trunkScale. cbn [vx vy vz].
  split; [apply smoothstep_unit; lra |].
  split; [reflexivity | split; [reflexivity |]].
  split; [| split].
  - intros He. unfold smoothstep.
    assert (H : Rleb e1 0.3 = true) by now apply Rleb_true.
    now rewrite H.
  - intros He. unfold smoothstep.
    destruct (Rleb e1 0.3) eqn:H1; [apply Rleb_true in H1; lra |].
    assert (H : Rleb 1.0 e1 = true) by (apply Rleb_true; lra).
    now rewrite H.
  - intros He. apply smoothstep_monotone; lra.
Qed.

(** ** The camera rig *)

Lemma rigTargetZ_range (state : AppState) (zoomOffset : R) :
  5 <= rigTargetZ state zoomOffset <= 50.
Proof.
  unfold rigTargetZ. split; [apply Rmax_l |].
  apply Rmax_lub; [lra | apply Rmin_r].
Qed.

Lemma rigFrame_range (state : AppState) (zoomOffset delta : R) (s : RigState) :
  0 <= delta -> 5 <= rig_z s <= 50 -> 0 <= rig_y s <= 2 ->
  5 <= rig_z (rigFrame state zoomOffset delta s) <= 50
  /\ 0 <= rig_y (rigFrame state zoomOffset delta s) <= 2.
Proof.
  intros Hd Hz Hy. unfold rigFrame. cbn [rig_z rig_y]. split.
  - apply damp_between; try lra. apply rigTargetZ_range.
  - apply damp_between; try lra. destruct state; lra.
Qed.

(** X28: the camera's target distance is clamped to [[5, 50]] whatever the
    zoom offset, and, through any sequence of frames with non-negative time
    steps from the initial rig, the damped distance stays in [[5, 50]], the
    damped height in [[0, 2]] and the camera's [z] in [[3.5, 51.5]]: the
    camera never reaches the plane of the tree's axis. *)
Theorem camera_stays_in_front (fs : list (AppState * R * R)) (t : R) :
  Forall (fun f => 0 <= snd f) fs ->
  (forall state zoomOffset, 5 <= rigTargetZ state zoomOffset <= 50)
  /\ 5 <= rig_z (rigRun fs initialRig) <= 50
  /\ 0 <= rig_y (rigRun fs initialRig) <= 2
  /\ 3.5 <= cameraZ t (rigRun fs initialRig) <= 51.5.
Proof.
  intros Hfs.
  assert (Hrun : forall s, 5 <= rig_z s <= 50 -> 0 <= rig_y s <= 2 ->
                   5 <= rig_z (rigRun fs s) <= 50
                   /\ 0 <= rig_y (rigRun fs s) <= 2).
  { unfold rigRun.
    induction Hfs as [| [[state zoomOffset] delta] fs Hf _ IH]; intros s Hz Hy;
      cbn [fold_left]; [now split |].
    cbn [snd] in Hf.
    destruct (rigFrame_range state zoomOffset delta s Hf Hz Hy) as [Hz' Hy'].
    now apply IH. }
  destruct (Hrun initialRig) as [Hz Hy]; [cbn; lra | cbn; lra |].
  split; [apply rigTargetZ_range | split; [exact Hz | split; [exact Hy |]]].
  unfold cameraZ. pose proof (SIN_bound (t * 0.15)) as [Hlo Hhi]. lra.
Qed.

Lemma camera_stays_in_front_witness :
  Forall (fun f : AppState * R * R => 0 <= snd f) [(CHAOS, 100, 1 / 60)]
  /\ 3.5 <= cameraZ 0 (rigRun [(CHAOS, 100, 1 / 60)] initialRig) <= 51.5.
Proof.
  assert (Hfs : Forall (fun f : AppState * R * R => 0 <= snd f)
                       [(CHAOS, 100, 1 / 60)]).
  { constructor; [cbn; lra | constructor]. }
  split; [exact Hfs |].
  exact (proj2 (proj2 (proj2 (camera_stays_in_front _ 0 Hfs)))).
Defined.

(** ** Snow *)

Lemma generateFlake_ok (rnd : nat -> R) (i : nat) :
  unit_random rnd -> flake_ok (generateFlake rnd i).
Proof.
  intros Hrnd. unfold flake_ok, generateFlake.
  cbn [fl_x fl_y fl_z fl_speed].
  pose proof (Hrnd (6 * i)%nat). pose proof (Hrnd (6 * i + 1)%nat).
  pose proof (Hrnd (6 * i + 2)%nat). pose proof (Hrnd (6 * i + 3)%nat).
  repeat split; lra.
Qed.

Lemma flakeFall_ok (rnd : nat -> R) (k : nat) (flake : Flake) :
  unit_random rnd -> flake_ok flake -> flake_ok (fst (flakeFall rnd k flake)).
Proof.
  intros Hrnd (Hx & Hy & Hz & Hs). unfold flakeFall.
  destruct (Rltb (fl_y flake - fl_speed flake * 0.03) (- 15)) eqn:Hwrap;
    cbn [fst]; unfold flake_ok; cbn [fl_x fl_y fl_z fl_speed].
  - pose proof (Hrnd k). pose proof (Hrnd (S k)). repeat split; lra.
  - apply Rltb_false in Hwrap. repeat split; lra.
Qed.

Lemma snowFrame_ok (rnd : nat -> R) (flakes : list Flake) (k : nat) :
  unit_random rnd -> Forall flake_ok flakes ->
  Forall flake_ok (fst (snowFrame rnd k flakes))
  /\ List.length (fst (snowFrame rnd k flakes)) = List.length flakes.
Proof.
  intros Hrnd Hok. revert k.
  induction Hok as [| flake flakes Hf _ IH]; intros k; cbn [snowFrame].
  - split; [constructor | reflexivity].
  - pose proof (flakeFall_ok rnd k flake Hrnd Hf) as Hstep.
    destruct (flakeFall rnd k flake) as [flake' k'].
    specialize (IH k'). destruct (snowFrame rnd k' flakes) as [rest' k''].
    cbn [fst] in *. destruct IH as [IHok IHlen].
    split; [now constructor | cbn [List.length]; now rewrite IHlen].
Qed.

(** X29: with random numbers in [[0, 1)], after generation and after any
    number of frames there are as many flakes as were made, and each is
    inside the box [|x| <= 30], [-15 <= y <= 30], [|z| <= 30]: a flake that
    falls below -15 re-enters at height 25. *)
Theorem snow_stays_in_its_box (rnd : nat -> R) (count n k : nat) :
  unit_random rnd ->
  Forall flake_ok (fst (snowFrames rnd n k (generateSnow rnd count)))
  /\ List.length (fst (snowFrames rnd n k (generateSnow rnd count))) = count.
Proof.
  intros Hrnd.
  assert (Hgen : Forall flake_ok (generateSnow rnd count)
                 /\ List.length (generateSnow rnd count) = count).
  { unfold generateSnow. rewrite for_loop_push. cbn [app]. split.
    - apply Forall_forall. intros flake Hin.
      apply in_map_iff in Hin as (i & <- & _). now apply generateFlake_ok.
    - now rewrite length_map, length_seq. }
  destruct Hgen as [Hok Hlen]. revert Hok Hlen.
  generalize (generateSnow rnd count) as flakes. revert k.
  induction n as [| n IH]; intros k flakes Hok Hlen; cbn [snowFrames].
  - now split.
  - destruct (snowFrame_ok rnd flakes k Hrnd Hok) as [Hok' Hlen'].
    destruct (snowFrame rnd k flakes) as [flakes' k']. cbn [fst] in *.
    apply IH; [exact Hok' | congruence].
Qed.

Lemma snow_stays_in_its_box_witness :
  unit_random (fun _ => 0)
  /\ List.length (fst (snowFrames (fun _ => 0) 3 0 (generateSnow (fun _ => 0) 2)))
     = 2%nat.
Proof.
  assert (Hrnd : unit_random (fun _ => 0)) by (intros k; lra).
  split; [exact Hrnd |].
  exact (proj2 (snow_stays_in_its_box (fun _ => 0) 2 3 0 Hrnd)).
Defined.
